(** * act-biso_labels.py: lookup loader, label formatter, block editor, walker

    A shallow embedding of [src/act-biso_labels.py] and the properties of
    its specification.

    Python's [str] is a sequence of Unicode code points; [\s] in [re] and
    [str.strip] use the Unicode white-space set, which has members outside
    ASCII.  A string is therefore a list of code points, and [lit] turns an
    ASCII literal into one. *)

From Stdlib Require Import NArith String Ascii.
From stdpp Require Import base list gmap.

Local Open Scope N_scope.
Set Default Proof Using "Type".

(** ** Strings *)

Definition char := N.
Abbreviation str := (list N).

Definition lit (s : string) : str :=
  (λ a : ascii, N_of_ascii a) <$> String.list_ascii_of_string s.

Definition LF : char := 10.
Definition CR : char := 13.
Definition QUOTE : char := 34.
Definition EQUALS : char := 61.

Definition str_eqb (s t : str) : bool := bool_decide (s = t).

(** [s.startswith(p)] *)
Fixpoint starts_with (p s : str) : bool :=
  match p, s with
  | [], _ => true
  | a :: p', b :: s' => (a =? b) && starts_with p' s'
  | _ :: _, [] => false
  end.

(** [p in s] *)
Fixpoint contains (p s : str) : bool :=
  starts_with p s ||
  match s with
  | [] => false
  | _ :: s' => contains p s'
  end.

(** [s.replace(old, new)] for a non-empty [old]: the occurrences of [old]
    are found from left to right without overlap.  [skip] counts the
    characters of an occurrence that are still to be dropped. *)
Fixpoint replace_from (old new : str) (skip : nat) (s : str) : str :=
  match s with
  | [] => []
  | c :: s' =>
      match skip with
      | S k => replace_from old new k s'
      | O =>
          if starts_with old s
          then new ++ replace_from old new (Nat.pred (length old)) s'
          else c :: replace_from old new O s'
      end
  end.

Definition replace (old new s : str) : str := replace_from old new O s.

(** ** Contact identifier formatter (lines 14-19) *)

Definition teco_domain : str := lit "@teco.com.ar".
Definition teco_label : str := lit "-teco_com_ar".

Definition format_email_for_label (email : str) : str :=
  replace teco_domain teco_label email.

(** ** White space and the regular expressions of the source

    [is_space] is the set of [str.isspace], which is also what [\s] matches
    in a [str] pattern: U+0009..U+000D, U+001C..U+0020, U+0085, U+00A0,
    U+1680, U+2000..U+200A, U+2028, U+2029, U+202F, U+205F, U+3000. *)
Definition is_space (c : char) : bool :=
  (9 <=? c) && (c <=? 13) || (28 <=? c) && (c <=? 32) ||
  (c =? 133) || (c =? 160) || (c =? 5760) ||
  (8192 <=? c) && (c <=? 8202) || (c =? 8232) || (c =? 8233) ||
  (c =? 8239) || (c =? 8287) || (c =? 12288).

(** The character class [[a-zA-Z0-9_-]]. *)
Definition is_label_char (c : char) : bool :=
  (97 <=? c) && (c <=? 122) || (65 <=? c) && (c <=? 90) ||
  (48 <=? c) && (c <=? 57) || (c =? 95) || (c =? 45).

Definition not_quote (c : char) : bool := negb (c =? QUOTE).
Definition not_newline (c : char) : bool := negb (c =? LF).

Fixpoint take_while (f : char → bool) (s : str) : str :=
  match s with
  | c :: s' => if f c then c :: take_while f s' else []
  | [] => []
  end.

Fixpoint drop_while (f : char → bool) (s : str) : str :=
  match s with
  | c :: s' => if f c then drop_while f s' else s
  | [] => []
  end.

Definition lstrip (s : str) : str := drop_while is_space s.
Definition rstrip (s : str) : str := reverse (drop_while is_space (reverse s)).
(** [s.strip()] *)
Definition strip (s : str) : str := rstrip (lstrip s).

(** [last_label_pattern.match(line)] is not [None], for the pattern
    [^\s*([a-zA-Z0-9_-]+)\s*=\s*Q.*Q], where Q stands for the double quote
    character.  Each starred class is followed by a
    character outside the class, so the greedy split is the only one; [.]
    does not match a line feed, so the closing quote has to come before the
    next line feed. *)
Definition last_label_pattern (line : str) : bool :=
  let s1 := drop_while is_space line in
  match take_while is_label_char s1 with
  | [] => false
  | _ :: _ =>
      match drop_while is_space (drop_while is_label_char s1) with
      | c :: s2 =>
          (c =? EQUALS) &&
          match drop_while is_space s2 with
          | q :: s3 =>
              (q =? QUOTE) &&
              bool_decide (QUOTE ∈ take_while not_newline s3)
          | [] => false
          end
      | [] => false
      end
  end.

(** [re.match(r'^(\s+)', line)]: the leading white space, [None] when there
    is none. *)
Definition leading_space (line : str) : option str :=
  match take_while is_space line with
  | [] => None
  | ws => Some ws
  end.

(** A match of [name\s*=\s*Q([^Q]+)Q] (Q the double quote character) that
    starts at the head of [s]; the result is group 1. *)
Definition project_name_here (s : str) : option str :=
  if starts_with (lit "name") s then
    match drop_while is_space (drop 4 s) with
    | c :: s1 =>
        if c =? EQUALS then
          match drop_while is_space s1 with
          | q :: s2 =>
              if q =? QUOTE then
                match take_while not_quote s2, drop_while not_quote s2 with
                | v :: vs, _ :: _ => Some (v :: vs)
                | _, _ => None
                end
              else None
          | [] => None
          end
        else None
    | [] => None
    end
  else None.

(** [project_name_pattern.search(content)]: the leftmost match; the result
    is [match.group(1)]. *)
Fixpoint project_name_pattern (content : str) : option str :=
  match project_name_here content with
  | Some v => Some v
  | None =>
      match content with
      | [] => None
      | _ :: rest => project_name_pattern rest
      end
  end.

(** ** Text files

    [open(path, 'r')] and [Path.read_text] read with universal newlines:
    CR LF and a lone CR arrive as LF.  [open(path, 'w')] writes every LF as
    [os.linesep], the platform's line separator. *)
Fixpoint universal_newlines (raw : str) : str :=
  match raw with
  | [] => []
  | c :: rest =>
      if c =? CR then
        match rest with
        | d :: rest' =>
            if d =? LF then LF :: universal_newlines rest'
            else LF :: universal_newlines rest
        | [] => [LF]
        end
      else c :: universal_newlines rest
  end.

(** The lines of a text, each with its line feed (the last one may have
    none). *)
Fixpoint split_lines (text : str) : list str :=
  match text with
  | [] => []
  | c :: rest =>
      if c =? LF then [c] :: split_lines rest
      else
        match split_lines rest with
        | [] => [[c]]
        | l :: ls => (c :: l) :: ls
        end
  end.

(** [f.readlines()] *)
Definition readlines (raw : str) : list str :=
  split_lines (universal_newlines raw).

(** What [f.writelines(new_lines)] leaves in the file. *)
Definition written (linesep : str) (new_lines : list str) : str :=
  c ← concat new_lines; if c =? LF then linesep else [c].

(** ** Console output and the file system

    Every [print] of the source is an event.  A path is the list of its
    components.  A file holds its decoded text ([None] when reading it
    raises: no permission, not UTF-8) and whether it can be opened for
    writing ([open(path, 'w')] raises on a file that is read-only or
    immutable, and leaves it as it is).  The lookup file is given as the
    records [csv.reader] yields for it (delimiter [;]). *)
Abbreviation path := (list (list N)).

Inductive event :=
  | CsvNotFound
  | CsvSchemaError (fieldnames : list str)
  | CsvLoaded (n : nat)
  | CsvReadError
  | InsertingLabel (formatted_email : str)
  | LabelsNotFound (file_path : path)
  | FileUpdated
  | FileError (file_path : path)
  | NotADirectory (iac_path : path)
  | SearchStarted (iac_path : path)
  | MatchFound (current_project_name : str) (hcl_path : path)
  | FileReadError (hcl_path : path)
  | Summary (files_processed files_modified : nat).

Inductive node :=
  | Dir
  | File (text : option str) (writable : bool).

Inductive csv_source :=
  | CsvMissing
  | CsvUnreadable
  | CsvRecords (records : list (list str)).

Global Instance event_eq_dec : EqDecision event.
Proof. solve_decision. Defined.
Global Instance node_eq_dec : EqDecision node.
Proof. solve_decision. Defined.

(** ** Lookup loader (lines 21-50) *)

Definition PROJECT_NAME_COL : str := lit "PROJECT_NAME".
Definition EMAIL_COL : str := lit "BISO_TEAM".

(** One row of [csv.DictReader]: [dict(zip(fieldnames, row))], then the
    fields the row is too short for are set to [restval], which is [None].
    (The surplus of a long row goes under the key [None], which no column
    name equals.) *)
Definition dict_row (fieldnames row : list str) : gmap str (option str) :=
  let d := foldl (λ d kv, <[kv.1 := Some kv.2]> d) ∅ (zip fieldnames row) in
  foldl (λ d key, <[key := None]> d) d (drop (length row) fieldnames).

(** The rows [DictReader] yields: it leaves out the records that are [[]]
    (blank lines). *)
Definition dict_rows (fieldnames : list str) (records : list (list str))
  : list (gmap str (option str)) :=
  dict_row fieldnames <$> filter (λ r, r ≠ []) records.

(** The body of the [for row in reader] loop; [None] is the
    [AttributeError] of [None.strip()]. *)
Definition load_row (project_data : gmap str str) (row : gmap str (option str))
  : option (gmap str str) :=
  match row !! PROJECT_NAME_COL, row !! EMAIL_COL with
  | Some (Some name), Some (Some contact) =>
      let project_name := strip name in
      let email := strip contact in
      if bool_decide (project_name ≠ []) && bool_decide (email ≠ [])
      then Some (<[project_name := email]> project_data)
      else Some project_data
  | _, _ => None
  end.

Fixpoint load_rows (project_data : gmap str str)
    (rows : list (gmap str (option str))) : option (gmap str str) :=
  match rows with
  | [] => Some project_data
  | row :: rows' =>
      match load_row project_data row with
      | Some project_data' => load_rows project_data' rows'
      | None => None
      end
  end.

Definition load_project_data (csv : csv_source)
  : option (gmap str str) * list event :=
  match csv with
  | CsvMissing => (None, [CsvNotFound])
  | CsvUnreadable => (None, [CsvReadError])
  | CsvRecords [] => (None, [CsvReadError])
  | CsvRecords (fieldnames :: records) =>
      if bool_decide (PROJECT_NAME_COL ∉ fieldnames) ||
         bool_decide (EMAIL_COL ∉ fieldnames)
      then (None, [CsvSchemaError fieldnames])
      else
        match load_rows ∅ (dict_rows fieldnames records) with
        | Some project_data => (Some project_data, [CsvLoaded (size project_data)])
        | None => (None, [CsvReadError])
        end
  end.

(** ** Block editor (lines 52-112) *)

Record scan := Scan {
  new_lines : list str;
  in_labels_block : bool;
  labels_block_found : bool;
  printed : list event
}.

Definition default_indentation : str := lit "    ".

(** [new_lines.insert(-1, x)] *)
Definition insert_before_last (x : str) (l : list str) : list str :=
  take (length l - 1)%nat l ++ x :: drop (length l - 1)%nat l.

(** The loop [for j in range(j, 0, -1)] of lines 85-90.  [lines[j]] is in
    range there, since [j < i]. *)
Fixpoint indentation_from (lines : list str) (j : nat) : str :=
  match j with
  | O => default_indentation
  | S j' =>
      match lines !! j with
      | Some l =>
          if last_label_pattern l
          then default default_indentation (leading_space l)
          else indentation_from lines j'
      | None => indentation_from lines j'
      end
  end.

Definition biso_team_line (indentation formatted_email : str) : str :=
  indentation ++ lit "biso_team                   = " ++
  [QUOTE] ++ formatted_email ++ [QUOTE; LF].

(** The body of [for i, line in enumerate(lines)]. *)
Definition scan_line (lines : list str) (email_to_add : str)
    (st : scan) (i : nat) (line : str) : scan :=
  let appended := new_lines st ++ [line] in
  if contains (lit "labels = {") line then
    Scan appended true true (printed st)
  else if in_labels_block st && str_eqb (strip line) (lit "}") then
    let indentation := indentation_from lines (i - 1)%nat in
    let formatted_email := format_email_for_label email_to_add in
    Scan (insert_before_last (biso_team_line indentation formatted_email) appended)
         false (labels_block_found st)
         (printed st ++ [InsertingLabel formatted_email])
  else
    Scan appended (in_labels_block st) (labels_block_found st) (printed st).

Definition enumerate_from (k : nat) (lines : list str) : list (nat * str) :=
  zip (seq k (length lines)) lines.

Definition scan_lines (lines : list str) (email_to_add : str) : scan :=
  foldl (λ st il, scan_line lines email_to_add st il.1 il.2)
        (Scan [] false false []) (enumerate_from 0 lines).

Section platform.
(** [os.linesep] *)
Variable linesep : str.

(** The whole function runs under [try]: when the file cannot be read
    (line 58) the handler of lines 111-112 prints the error; when it cannot
    be opened for writing (line 106), the loop has run and printed its
    messages, nothing is written, and the handler prints the error. *)
Definition update_terragrunt_file (fs : gmap path node) (file_path : path)
    (project_name email_to_add : str) : gmap path node * list event :=
  match fs !! file_path with
  | Some (File (Some raw) writable) =>
      let st := scan_lines (readlines raw) email_to_add in
      if negb (labels_block_found st) then
        (fs, printed st ++ [LabelsNotFound file_path])
      else if writable then
        (<[file_path := File (Some (written linesep (new_lines st))) writable]> fs,
         printed st ++ [FileUpdated])
      else
        (fs, printed st ++ [FileError file_path])
  | _ => (fs, [FileError file_path])
  end.

(** ** Directory walker (lines 114-156) *)

Definition is_dir (fs : gmap path node) (p : path) : bool :=
  bool_decide (fs !! p = Some Dir).

(** [Path.read_text(encoding='utf-8')] *)
Definition read_text (fs : gmap path node) (p : path) : option str :=
  match fs !! p with
  | Some (File (Some raw) _) => Some (universal_newlines raw)
  | _ => None
  end.

(** The paths [iac_path.glob("**/project/terragrunt.hcl")] yields: those
    below [iac_path] that end in [project/terragrunt.hcl].  Their order is
    the operating system's; here it is that of the map. *)
Definition is_project_file (iac_path hcl_path : path) : bool :=
  bool_decide (iac_path `prefix_of` hcl_path ∧
               [lit "project"; lit "terragrunt.hcl"]
                 `suffix_of` drop (length iac_path) hcl_path).

Definition glob (fs : gmap path node) (iac_path : path) : list path :=
  filter (λ p, is_project_file iac_path p) (map_to_list fs).*1.

Record walk := Walk {
  files : gmap path node;
  output : list event;
  files_processed : nat;
  files_modified : nat
}.

(** The body of the [for hcl_path in ...] loop. *)
Definition visit (project_data : gmap str str) (w : walk) (hcl_path : path)
  : walk :=
  let processed := S (files_processed w) in
  match read_text (files w) hcl_path with
  | None =>
      Walk (files w) (output w ++ [FileReadError hcl_path])
           processed (files_modified w)
  | Some content =>
      match project_name_pattern content with
      | None => Walk (files w) (output w) processed (files_modified w)
      | Some current_project_name =>
          match project_data !! current_project_name with
          | Some email =>
              let r := update_terragrunt_file (files w) hcl_path
                         current_project_name email in
              Walk r.1
                   (output w ++ [MatchFound current_project_name hcl_path] ++ r.2)
                   processed (S (files_modified w))
          | None => Walk (files w) (output w) processed (files_modified w)
          end
      end
  end.

Definition main (fs : gmap path node) (iac_path : path)
    (project_data : gmap str str) : gmap path node * list event :=
  if negb (is_dir fs iac_path) then (fs, [NotADirectory iac_path])
  else
    let w := foldl (visit project_data)
                   (Walk fs [SearchStarted iac_path] 0 0) (glob fs iac_path) in
    (files w, output w ++ [Summary (files_processed w) (files_modified w)]).

(** ** The script body (lines 180-183); a dictionary is true when it is
    not empty. *)
Definition script (csv : csv_source) (fs : gmap path node) (iac_path : path)
  : gmap path node * list event :=
  let loaded := load_project_data csv in
  match loaded.1 with
  | Some project_info =>
      if negb (size project_info =? 0)%nat then
        let r := main fs iac_path project_info in (r.1, loaded.2 ++ r.2)
      else (fs, loaded.2)
  | None => (fs, loaded.2)
  end.
End platform.

(** ** Vocabulary of the properties *)

(** A block opener: a line with [labels = {] in it. *)
Definition is_opener (line : str) : bool := contains (lit "labels = {") line.

(** A block closer: a line that is [}] once trimmed. *)
Definition is_closer (line : str) : bool := str_eqb (strip line) (lit "}").

(** A line of the inside of a block: neither an opener nor a closer. *)
Definition is_inner (line : str) : bool := negb (is_opener line) && negb (is_closer line).

(** The loop of the block editor, resumed in state [st] at index [k] with
    [rest] still to read; [lines] is the whole file. *)
Definition scan_from (lines : list str) (email_to_add : str) (st : scan)
    (k : nat) (rest : list str) : scan :=
  foldl (λ st il, scan_line lines email_to_add st il.1 il.2)
        st (enumerate_from k rest).

Definition is_biso_team_line (line : str) : bool := contains (lit "biso_team") line.

(** How many lines of [l] satisfy [f]. *)
Definition count_lines (f : str → bool) (l : list str) : nat :=
  length (filter (λ x, f x) l).


(** The value a row has for a column, if it has one (a short row has
    [None] for its last columns). *)
Definition supplied (row : gmap str (option str)) (col : str) : option str :=
  row !! col ≫= id.

(** A row that has a value for both columns. *)
Definition complete (row : gmap str (option str)) : Prop :=
  is_Some (supplied row PROJECT_NAME_COL) ∧ is_Some (supplied row EMAIL_COL).

(** The trimmed pair of a row whose trimmed name and contact are both
    non-empty. *)
Definition usable_pair (row : gmap str (option str)) : option (str * str) :=
  name ← supplied row PROJECT_NAME_COL;
  contact ← supplied row EMAIL_COL;
  if bool_decide (strip name ≠ []) && bool_decide (strip contact ≠ [])
  then Some (strip name, strip contact) else None.

Definition usable_pairs (rows : list (gmap str (option str))) : list (str * str) :=
  omap usable_pair rows.

(** One line as [open(path, 'w')] writes it. *)
Definition written_line (linesep : str) (line : str) : str :=
  c ← line; if (c =? LF)%N then linesep else [c].

(** The file at [p] can be read and its project name is a key of the
    mapping. *)
Definition lookup_hit (fs : gmap path node) (project_data : gmap str str)
    (p : path) : bool :=
  match read_text fs p with
  | Some content =>
      match project_name_pattern content with
      | Some name => bool_decide (is_Some (project_data !! name))
      | None => false
      end
  | None => false
  end.

(** The file at [p] can be read and one of its lines is an opener. *)
Definition has_labels_block (fs : gmap path node) (p : path) : bool :=
  match fs !! p with
  | Some (File (Some raw) _) => existsb is_opener (readlines raw)
  | _ => false
  end.

(** ** Sample inputs *)

Definition quoted (s : string) : str := [QUOTE] ++ lit s ++ [QUOTE].

(** A text from its lines, each ended by [eol]. *)
Definition text_of (eol : str) (ls : list str) : str := concat ((λ l, l ++ eol) <$> ls).

Definition sample_email : str := lit "ana@teco.com.ar".
Definition sample_biso_team_line (indentation : string) : str :=
  lit indentation ++ lit "biso_team                   = " ++
  quoted "ana-teco_com_ar".

(** Two [labels] blocks. *)
Definition two_blocks_hcl : list str :=
  [ lit "inputs = {";
    lit "  name = " ++ quoted "p1";
    lit "  labels = {";
    lit "    env = " ++ quoted "prod";
    lit "  }";
    lit "  extra = {";
    lit "    labels = {";
    lit "      tier = " ++ quoted "web";
    lit "    }";
    lit "  }";
    lit "}" ].

Definition two_blocks_hcl_edited : list str :=
  [ lit "inputs = {";
    lit "  name = " ++ quoted "p1";
    lit "  labels = {";
    lit "    env = " ++ quoted "prod";
    sample_biso_team_line "    ";
    lit "  }";
    lit "  extra = {";
    lit "    labels = {";
    lit "      tier = " ++ quoted "web";
    sample_biso_team_line "      ";
    lit "    }";
    lit "  }";
    lit "}" ].

(** What the file would be if the first block only were edited. *)
Definition two_blocks_hcl_first_only : list str :=
  [ lit "inputs = {";
    lit "  name = " ++ quoted "p1";
    lit "  labels = {";
    lit "    env = " ++ quoted "prod";
    sample_biso_team_line "    ";
    lit "  }";
    lit "  extra = {";
    lit "    labels = {";
    lit "      tier = " ++ quoted "web";
    lit "    }";
    lit "  }";
    lit "}" ].

(** A block whose last line is a comment. *)
Definition comment_block_hcl : list str :=
  [ lit "inputs = {";
    lit "  name = " ++ quoted "p1";
    lit "  labels = {";
    lit "      # no labels yet";
    lit "  }";
    lit "}" ].

Definition comment_block_hcl_edited (indentation : string) : list str :=
  [ lit "inputs = {";
    lit "  name = " ++ quoted "p1";
    lit "  labels = {";
    lit "      # no labels yet";
    sample_biso_team_line indentation;
    lit "  }";
    lit "}" ].

(** One block. *)
Definition one_block_hcl : list str :=
  [ lit "inputs = {";
    lit "  name = " ++ quoted "p1";
    lit "  labels = {";
    lit "    env = " ++ quoted "prod";
    lit "  }";
    lit "}" ].

(** A file that has been labelled already. *)
Definition labelled_hcl : list str :=
  [ lit "inputs = {";
    lit "  name = " ++ quoted "p1";
    lit "  labels = {";
    lit "    env = " ++ quoted "prod";
    sample_biso_team_line "    ";
    lit "  }";
    lit "}" ].

(** A file without a [labels] block. *)
Definition no_block_hcl : list str :=
  [ lit "inputs = {";
    lit "  name = " ++ quoted "p1";
    lit "}" ].

Definition sample_path : path :=
  [lit "iac"; lit "app"; lit "project"; lit "terragrunt.hcl"].

Definition sample_fs (content : str) : gmap path node :=
  <[sample_path := File (Some content) true]>
    (<[[lit "iac"; lit "app"; lit "project"] := Dir]>
       (<[[lit "iac"; lit "app"] := Dir]> {[ [lit "iac"] := Dir ]})).

Definition sample_header : list str := [PROJECT_NAME_COL; EMAIL_COL].

Definition sample_project_data : gmap str str := {[ lit "p1" := sample_email ]}.

(** * Properties *)

Local Close Scope N_scope.

(** ** Strings *)

Lemma starts_with_true p s : starts_with p s = true ↔ ∃ t, s = p ++ t.
Proof.
  revert s. induction p as [|a p IH]; intros s; simpl.
  - split; eauto.
  - destruct s as [|b s]; simpl.
    + split; [done | intros [t Ht]; discriminate].
    + rewrite andb_true_iff, N.eqb_eq, IH. split.
      * intros [-> [t ->]]. eauto.
      * intros [t Ht]. injection Ht as -> ->. eauto.
Qed.

Lemma starts_with_app p t : starts_with p (p ++ t) = true.
Proof. apply starts_with_true. eauto. Qed.

Lemma contains_true p s : contains p s = true ↔ ∃ a b, s = a ++ p ++ b.
Proof.
  induction s as [|c s IH]; simpl; rewrite orb_true_iff, starts_with_true.
  - split.
    + intros [[t Ht]|]; [|done]. exists [], t. done.
    + intros (a & b & H). left. destruct a; simpl in H; [eauto|done].
  - rewrite IH. split.
    + intros [[t Ht]|(a & b & ->)].
      * exists [], t. done.
      * exists (c :: a), b. done.
    + intros (a & b & H). destruct a as [|c' a]; simpl in H.
      * left. eauto.
      * right. injection H as -> ->. eauto.
Qed.

Lemma contains_false_tail p c s :
  contains p (c :: s) = false → contains p s = false.
Proof. simpl. intros H%orb_false_iff. tauto. Qed.

Lemma contains_false_head p s :
  contains p s = false → starts_with p s = false.
Proof. destruct s; simpl; intros H%orb_false_iff; tauto. Qed.

Lemma replace_from_skip old new k s :
  replace_from old new k s = replace_from old new O (drop k s).
Proof.
  revert k. induction s as [|c s IH]; intros [|k]; simpl; done.
Qed.

(** An occurrence of [old] at the head is replaced, and the scan goes on
    behind it. *)
Lemma replace_occurrence old new s :
  old ≠ [] → replace old new (old ++ s) = new ++ replace old new s.
Proof.
  intros Hne. unfold replace. destruct old as [|a old]; [done|].
  change (replace_from (a :: old) new O ((a :: old) ++ s))
    with (if starts_with (a :: old) ((a :: old) ++ s)
          then new ++ replace_from (a :: old) new (length old) (old ++ s)
          else a :: replace_from (a :: old) new O (old ++ s)).
  rewrite starts_with_app, replace_from_skip, drop_app_length. done.
Qed.

Lemma replace_no_occurrence_here old new c s :
  starts_with old (c :: s) = false →
  replace old new (c :: s) = c :: replace old new s.
Proof. unfold replace. simpl. intros ->. done. Qed.

Lemma replace_absent old new s :
  contains old s = false → replace old new s = s.
Proof.
  induction s as [|c s IH]; intros H; [done|].
  rewrite replace_no_occurrence_here by by apply contains_false_head.
  f_equal. apply IH. by eapply contains_false_tail.
Qed.

(** An occurrence of the domain cannot begin inside [x] and end inside a
    following occurrence: [@] is the first character of the domain only. *)
Lemma teco_domain_no_straddle x y :
  x ≠ [] →
  starts_with teco_domain (x ++ teco_domain ++ y) = true →
  starts_with teco_domain x = true.
Proof.
  intros Hne.
  let v := eval vm_compute in teco_domain in change teco_domain with v.
  do 12 (destruct x as [|? x];
         [first [done | simpl; rewrite ?andb_false_r; done]|]).
  simpl. done.
Qed.

Lemma format_prefix_kept x s :
  contains teco_domain x = false →
  format_email_for_label (x ++ teco_domain ++ s)
  = x ++ format_email_for_label (teco_domain ++ s).
Proof.
  unfold format_email_for_label.
  induction x as [|c x IH]; intros H; [done|].
  simpl app. rewrite replace_no_occurrence_here.
  - f_equal. apply IH. by eapply contains_false_tail.
  - apply contains_false_head in H. apply not_true_is_false.
    intros Hs. apply (teco_domain_no_straddle (c :: x) s) in Hs; [|done].
    congruence.
Qed.

(** C8.  The formatter turns [a@teco.com.ar] into [a-teco_com_ar], returns
    an identifier in which the literal [@teco.com.ar] does not occur
    unchanged (so [a@other.com]), and replaces the literal by
    [-teco_com_ar] where it occurs: at the end of an identifier, and, with
    the rest formatted in the same way, at its leftmost occurrence. *)
Theorem format_email_for_label_spec :
  format_email_for_label (lit "a@teco.com.ar") = lit "a-teco_com_ar" ∧
  format_email_for_label (lit "a@other.com") = lit "a@other.com" ∧
  (∀ s, contains teco_domain s = false → format_email_for_label s = s) ∧
  (∀ x, contains teco_domain x = false →
        format_email_for_label (x ++ teco_domain) = x ++ teco_label) ∧
  (∀ x y, contains teco_domain x = false →
          format_email_for_label (x ++ teco_domain ++ y)
          = x ++ teco_label ++ format_email_for_label y).
Proof.
  split_and!.
  - by vm_compute.
  - by vm_compute.
  - intros s. apply replace_absent.
  - intros x Hx.
    replace (x ++ teco_domain) with (x ++ teco_domain ++ [])
      by by rewrite app_nil_r.
    rewrite format_prefix_kept by done. unfold format_email_for_label.
    rewrite replace_occurrence by done. by rewrite app_nil_r.
  - intros x y Hx. rewrite format_prefix_kept by done.
    unfold format_email_for_label. by rewrite replace_occurrence.
Qed.

Lemma format_email_for_label_spec_witness :
  format_email_for_label (lit "x@y") = lit "x@y" ∧
  format_email_for_label (lit "ana" ++ teco_domain) = lit "ana" ++ teco_label ∧
  format_email_for_label (lit "ana" ++ teco_domain ++ lit ";b")
  = lit "ana" ++ teco_label ++ format_email_for_label (lit ";b").
Proof.
  destruct format_email_for_label_spec as (_ & _ & H1 & H2 & H3).
  split_and!.
  - apply H1. by vm_compute.
  - apply H2. by vm_compute.
  - apply H3. by vm_compute.
Defined.

(** ** The regular expressions *)

Lemma take_drop_while f s : take_while f s ++ drop_while f s = s.
Proof.
  induction s as [|c s IH]; [done|]. simpl.
  destruct (f c); simpl; by rewrite ?IH.
Qed.

Lemma take_while_Forall f s : Forall (λ c, f c = true) (take_while f s).
Proof.
  induction s as [|c s IH]; simpl; [done|].
  destruct (f c) eqn:Hc; [by constructor|done].
Qed.

Lemma drop_while_head f s c v : drop_while f s = c :: v → f c = false.
Proof.
  induction s as [|d s IH]; simpl; [done|].
  destruct (f d) eqn:Hd; [done|]. by intros [= -> _].
Qed.

Lemma take_while_app_stop f w c v :
  Forall (λ c, f c = true) w → f c = false →
  take_while f (w ++ c :: v) = w.
Proof.
  intros Hw Hc. induction Hw as [|d w Hd _ IH]; simpl.
  - by rewrite Hc.
  - by rewrite Hd, IH.
Qed.

Lemma drop_while_app_all f w c v :
  Forall (λ c, f c = true) w → f c = false →
  drop_while f (w ++ c :: v) = c :: v.
Proof.
  intros Hw Hc. induction Hw as [|d w Hd _ IH]; simpl.
  - by rewrite Hc.
  - by rewrite Hd, IH.
Qed.

Lemma space_not_label_char c : is_space c = true → is_label_char c = false.
Proof.
  unfold is_space, is_label_char. intros H. apply not_true_is_false. intros H'.
  repeat (rewrite ?orb_true_iff, ?andb_true_iff, ?N.leb_le, ?N.eqb_eq in H).
  repeat (rewrite ?orb_true_iff, ?andb_true_iff, ?N.leb_le, ?N.eqb_eq in H').
  lia.
Qed.

Lemma label_char_not_space c : is_label_char c = true → is_space c = false.
Proof.
  intros H. destruct (is_space c) eqn:Hs; [|done].
  apply space_not_label_char in Hs. congruence.
Qed.

Lemma quote_before_newline value rest :
  Forall (λ c, not_newline c = true) value →
  QUOTE ∈ take_while not_newline (value ++ QUOTE :: rest).
Proof.
  induction 1 as [|d value Hd _ IH]; simpl.
  - by left.
  - rewrite Hd. by right.
Qed.

(** X2.  [last_label_pattern] is the pattern read as a regular expression:
    a line matches exactly when it begins with white space, a key of one
    label character or more, white space, [=], white space, a double quote,
    any characters but line feeds, and a double quote; what follows is
    free. *)
Lemma last_label_pattern_regex line :
  last_label_pattern line = true ↔
  ∃ w1 key w2 w3 value rest,
    line = w1 ++ key ++ w2 ++ [EQUALS] ++ w3 ++ [QUOTE] ++ value ++ [QUOTE] ++ rest ∧
    Forall (λ c, is_space c = true) w1 ∧
    key ≠ [] ∧ Forall (λ c, is_label_char c = true) key ∧
    Forall (λ c, is_space c = true) w2 ∧
    Forall (λ c, is_space c = true) w3 ∧
    Forall (λ c, not_newline c = true) value.
Proof.
  unfold last_label_pattern. split.
  - pose proof (take_drop_while is_space line) as H1.
    pose proof (take_while_Forall is_space line) as F1.
    set (s1 := drop_while is_space line) in *.
    pose proof (take_drop_while is_label_char s1) as H2.
    pose proof (take_while_Forall is_label_char s1) as F2.
    destruct (take_while is_label_char s1) as [|k key] eqn:Hkey; [done|].
    set (s1' := drop_while is_label_char s1) in *.
    pose proof (take_drop_while is_space s1') as H3.
    pose proof (take_while_Forall is_space s1') as F3.
    destruct (drop_while is_space s1') as [|c s2]; [done|].
    intros [Hc H]%andb_true_iff. apply N.eqb_eq in Hc as ->.
    pose proof (take_drop_while is_space s2) as H4.
    pose proof (take_while_Forall is_space s2) as F4.
    destruct (drop_while is_space s2) as [|q s3]; [done|].
    apply andb_true_iff in H as [Hq H]. apply N.eqb_eq in Hq as ->.
    apply bool_decide_eq_true in H.
    pose proof (take_drop_while not_newline s3) as H5.
    pose proof (take_while_Forall not_newline s3) as F5.
    apply list_elem_of_split in H as (value & v2 & Hv). rewrite Hv in H5, F5.
    apply Forall_app in F5 as [F5 _].
    exists (take_while is_space line), (k :: key), (take_while is_space s1'),
           (take_while is_space s2), value, (v2 ++ drop_while not_newline s3).
    split_and!; try done.
    rewrite <- H1, <- H2, <- H3, <- H4, <- H5 at 1.
    by rewrite <- !app_assoc.
  - intros (w1 & key & w2 & w3 & value & rest & -> & F1 & Hne & F2 & F3 & F4 & F5).
    destruct key as [|k key]; [done|]. inversion F2 as [|?? Hk F2']; subst.
    assert (is_label_char EQUALS = false) as Heq by done.
    assert (is_space EQUALS = false) as Heq' by done.
    assert (is_space QUOTE = false) as Hq by done.
    simpl app.
    rewrite (drop_while_app_all is_space w1 k) by (done || by apply label_char_not_space).
    assert (∃ c v, w2 ++ EQUALS :: w3 ++ QUOTE :: value ++ QUOTE :: rest = c :: v
                   ∧ is_label_char c = false) as (c & v & Hcv & Hc).
    { destruct F3 as [|c w2 Hc _]; simpl; eauto using space_not_label_char. }
    rewrite Hcv.
    change (k :: key ++ c :: v) with ((k :: key) ++ c :: v).
    rewrite (take_while_app_stop is_label_char (k :: key) c v) by done.
    rewrite (drop_while_app_all is_label_char (k :: key) c v) by done.
    rewrite <- Hcv.
    rewrite (drop_while_app_all is_space w2 EQUALS) by done.
    rewrite N.eqb_refl. simpl andb.
    rewrite (drop_while_app_all is_space w3 QUOTE) by done.
    rewrite N.eqb_refl. simpl andb.
    apply bool_decide_eq_true. by apply quote_before_newline.
Qed.

(** [project_name_here] is the pattern of the project name read as a
    regular expression, matched at the head of [s]: [name], white space,
    [=], white space, a double quote, the name (one character or more,
    none of them a double quote), a double quote. *)
Lemma project_name_here_regex s name :
  project_name_here s = Some name ↔
  ∃ w1 w2 rest,
    s = lit "name" ++ w1 ++ [EQUALS] ++ w2 ++ [QUOTE] ++ name ++ [QUOTE] ++ rest ∧
    Forall (λ c, is_space c = true) w1 ∧
    Forall (λ c, is_space c = true) w2 ∧
    name ≠ [] ∧ Forall (λ c, not_quote c = true) name.
Proof.
  unfold project_name_here. split.
  - destruct (starts_with (lit "name") s) eqn:Hs; [|done].
    apply starts_with_true in Hs as [t ->].
    rewrite drop_app_length'; [|done].
    pose proof (take_drop_while is_space t) as H1.
    pose proof (take_while_Forall is_space t) as F1.
    destruct (drop_while is_space t) as [|c s1]; [done|].
    destruct (c =? EQUALS)%N eqn:Hc; [|done]. apply N.eqb_eq in Hc as ->.
    pose proof (take_drop_while is_space s1) as H2.
    pose proof (take_while_Forall is_space s1) as F2.
    destruct (drop_while is_space s1) as [|q s2]; [done|].
    destruct (q =? QUOTE)%N eqn:Hq; [|done]. apply N.eqb_eq in Hq as ->.
    pose proof (take_drop_while not_quote s2) as H3.
    pose proof (take_while_Forall not_quote s2) as F3.
    destruct (drop_while not_quote s2) as [|q' rest] eqn:Hrest;
      [by destruct (take_while not_quote s2)|].
    apply drop_while_head in Hrest. unfold not_quote in Hrest.
    apply negb_false_iff, N.eqb_eq in Hrest as ->.
    destruct (take_while not_quote s2) as [|v vs] eqn:Hv; [done|].
    intros [= <-].
    exists (take_while is_space t), (take_while is_space s1), rest.
    split_and!; try done.
    rewrite <- H1, <- H2, <- H3 at 1. by rewrite <- ?app_assoc.
  - intros (w1 & w2 & rest & -> & F1 & F2 & Hne & F3).
    rewrite starts_with_app, drop_app_length'; [|done]. cbn [app].
    assert (is_space EQUALS = false) as Heq by done.
    assert (is_space QUOTE = false) as Hq by done.
    assert (not_quote QUOTE = false) as Hq' by done.
    rewrite (drop_while_app_all is_space w1 EQUALS) by done.
    rewrite N.eqb_refl.
    rewrite (drop_while_app_all is_space w2 QUOTE) by done.
    rewrite N.eqb_refl.
    rewrite (take_while_app_stop not_quote name QUOTE) by done.
    rewrite (drop_while_app_all not_quote name QUOTE) by done.
    by destruct name.
Qed.

(** [project_name_pattern] is [search]: the match that starts leftmost. *)
Lemma project_name_pattern_search content name :
  project_name_pattern content = Some name ↔
  ∃ before after,
    content = before ++ after ∧
    project_name_here after = Some name ∧
    ∀ b1 b2, before = b1 ++ b2 → b2 ≠ [] →
             project_name_here (b2 ++ after) = None.
Proof.
  induction content as [|c content IH].
  - split; [done|].
    intros (before & after & Hc & Hhere & _).
    destruct before, after; done.
  - cbn [project_name_pattern].
    destruct (project_name_here (c :: content)) as [v|] eqn:Hhere.
    + split.
      * intros [= ->]. exists [], (c :: content). split_and!; [done..|].
        intros b1 b2 Hb. by destruct b1, b2.
      * intros (before & after & Hc & Hafter & Hleft).
        destruct before as [|b before].
        -- simpl in Hc. subst after. congruence.
        -- specialize (Hleft [] (b :: before) eq_refl).
           rewrite <- Hc, Hhere in Hleft. by discriminate Hleft.
    + rewrite IH. split.
      * intros (before & after & -> & Hafter & Hleft).
        exists (c :: before), after. split_and!; [done..|].
        intros b1 b2 Hb Hne. destruct b1 as [|b b1].
        -- simpl in Hb. subst b2. done.
        -- injection Hb as -> ->. by apply (Hleft b1 b2).
      * intros (before & after & Hc & Hafter & Hleft).
        destruct before as [|b before].
        -- simpl in Hc. subst after. congruence.
        -- injection Hc as -> ->. exists before, after. split_and!; [done..|].
           intros b1 b2 -> Hne. by apply (Hleft (b :: b1) b2).
Qed.

(** ** The loop of the block editor *)

Lemma enumerate_from_cons k a l :
  enumerate_from k (a :: l) = (k, a) :: enumerate_from (S k) l.
Proof. done. Qed.

Lemma scan_lines_from lines email :
  scan_lines lines email = scan_from lines email (Scan [] false false []) 0 lines.
Proof. done. Qed.

Lemma scan_from_nil lines email st k : scan_from lines email st k [] = st.
Proof. done. Qed.

Lemma scan_from_cons lines email st k a rest :
  scan_from lines email st k (a :: rest)
  = scan_from lines email (scan_line lines email st k a) (S k) rest.
Proof. done. Qed.

Lemma scan_from_app lines email st k l1 l2 :
  scan_from lines email st k (l1 ++ l2)
  = scan_from lines email (scan_from lines email st k l1) (k + length l1) l2.
Proof.
  revert st k. induction l1 as [|a l1 IH]; intros st k.
  - rewrite scan_from_nil. simpl. by rewrite Nat.add_0_r.
  - simpl app. rewrite !scan_from_cons, IH. simpl length.
    by rewrite Nat.add_succ_r.
Qed.

Lemma insert_before_last_snoc x l a :
  insert_before_last x (l ++ [a]) = l ++ [x; a].
Proof.
  unfold insert_before_last. rewrite length_app. simpl.
  replace (length l + 1 - 1)%nat with (length l) by lia.
  by rewrite take_app_length, drop_app_length.
Qed.

(** The three cases of the loop body. *)
Lemma scan_line_opener lines email st i line :
  is_opener line = true →
  scan_line lines email st i line
  = Scan (new_lines st ++ [line]) true true (printed st).
Proof. unfold is_opener, scan_line. by intros ->. Qed.

Lemma scan_line_closer lines email st i line :
  is_opener line = false → is_closer line = true →
  in_labels_block st = true →
  scan_line lines email st i line
  = Scan (new_lines st ++
            [biso_team_line (indentation_from lines (i - 1))
                            (format_email_for_label email); line])
         false (labels_block_found st)
         (printed st ++ [InsertingLabel (format_email_for_label email)]).
Proof.
  unfold is_opener, is_closer, scan_line. intros -> -> ->. simpl.
  by rewrite insert_before_last_snoc.
Qed.

Lemma scan_line_other lines email st i line :
  is_opener line = false →
  in_labels_block st && is_closer line = false →
  scan_line lines email st i line
  = Scan (new_lines st ++ [line]) (in_labels_block st)
         (labels_block_found st) (printed st).
Proof. unfold is_opener, is_closer, scan_line. by intros -> ->. Qed.

(** Outside a block, lines without an opener are copied and nothing else
    happens. *)
Lemma scan_from_plain lines email st k rest :
  in_labels_block st = false →
  Forall (λ l, is_opener l = false) rest →
  scan_from lines email st k rest
  = Scan (new_lines st ++ rest) false (labels_block_found st) (printed st).
Proof.
  intros Hst Hrest. revert st k Hst.
  induction Hrest as [|a rest Ha _ IH]; intros st k Hst.
  - rewrite scan_from_nil, app_nil_r. destruct st; simpl in *; by subst.
  - rewrite scan_from_cons, scan_line_other by (by rewrite ?Hst).
    rewrite IH by done. simpl. by rewrite <- app_assoc.
Qed.

(** Inside a block, inner lines are copied and the block stays open. *)
Lemma scan_from_inner lines email st k body :
  in_labels_block st = true →
  Forall (λ l, is_inner l = true) body →
  scan_from lines email st k body
  = Scan (new_lines st ++ body) true (labels_block_found st) (printed st).
Proof.
  intros Hst Hbody. revert st k Hst.
  induction Hbody as [|a rest Ha _ IH]; intros st k Hst.
  - rewrite scan_from_nil, app_nil_r. destruct st; simpl in *; by subst.
  - apply andb_true_iff in Ha as [Ho Hc]. apply negb_true_iff in Ho, Hc.
    rewrite scan_from_cons, scan_line_other by (by rewrite ?Hc, ?andb_false_r).
    rewrite IH by done. simpl. by rewrite <- app_assoc.
Qed.

(** The loop only ever adds to [new_lines] and to the output, every line
    read is copied, in order, and a line that is added is a [biso_team]
    line. *)
Lemma scan_from_extends lines email st k rest :
  ∃ added,
    new_lines (scan_from lines email st k rest) = new_lines st ++ added ∧
    rest `sublist_of` added ∧
    count_lines is_biso_team_line rest ≤ count_lines is_biso_team_line added.
Proof.
  revert st k. induction rest as [|a rest IH]; intros st k.
  - exists []. rewrite scan_from_nil, app_nil_r. done.
  - rewrite scan_from_cons.
    destruct (IH (scan_line lines email st k a) (S k)) as (added & -> & Hs & Hc).
    unfold count_lines in *.
    destruct (is_opener a) eqn:Ho;
      [rewrite scan_line_opener by done
      |destruct (in_labels_block st && is_closer a) eqn:Hc';
       [apply andb_true_iff in Hc' as [??]; rewrite scan_line_closer by done
       |rewrite scan_line_other by done]]; simpl.
    + exists (a :: added). rewrite <- app_assoc. split_and!; [done| |].
      * by constructor.
      * rewrite !filter_cons. case_decide; simpl; lia.
    + eexists (_ :: a :: added). rewrite <- app_assoc. split_and!; [done| |].
      * by do 2 constructor.
      * rewrite !filter_cons. repeat case_decide; simpl; lia.
    + exists (a :: added). rewrite <- app_assoc. split_and!; [done| |].
      * by constructor.
      * rewrite !filter_cons. case_decide; simpl; lia.
Qed.

(** ** Openers and closers *)

Lemma drop_while_app_stop f a c t :
  f c = false → drop_while f (a ++ c :: t) = drop_while f a ++ c :: t.
Proof.
  intros Hc. induction a as [|x a IH]; simpl.
  - by rewrite Hc.
  - destruct (f x); [done|done].
Qed.

(** Trimming keeps an occurrence of the opener: its first and last
    characters are not white space. *)
Lemma strip_keeps_opener a b :
  ∃ a' b', strip (a ++ lit "labels = {" ++ b) = a' ++ lit "labels = {" ++ b'.
Proof.
  unfold strip, lstrip, rstrip.
  let v := eval vm_compute in (lit "labels = {") in
    change (lit "labels = {") with v.
  cbn [app]. rewrite drop_while_app_stop by done.
  exists (drop_while is_space a), (reverse (drop_while is_space (reverse b))).
  rewrite !reverse_app, !reverse_cons.
  rewrite <- !app_assoc. cbn [app].
  rewrite drop_while_app_stop by done.
  rewrite !reverse_app, !reverse_cons, ?reverse_nil, !reverse_involutive.
  rewrite <- !app_assoc. done.
Qed.

Lemma closer_not_opener line : is_closer line = true → is_opener line = false.
Proof.
  unfold is_closer, is_opener, str_eqb. intros Hc%bool_decide_eq_true.
  apply not_true_is_false. intros (a & b & ->)%contains_true.
  destruct (strip_keeps_opener a b) as (a' & b' & Hs). rewrite Hs in Hc.
  apply (f_equal length) in Hc. rewrite !length_app in Hc.
  vm_compute (length (lit "labels = {")) in Hc.
  vm_compute (length (lit "}")) in Hc. lia.
Qed.

(** A block anywhere in the file: from a state [st] reached at index [k],
    an opener, inner lines and a closer leave the new line just before the
    closer, and the block closed. *)
Lemma scan_from_block lines email st k o body c :
  is_opener o = true →
  Forall (λ l, is_inner l = true) body →
  is_closer c = true →
  scan_from lines email st k ([o] ++ body ++ [c])
  = Scan (new_lines st ++ [o] ++ body ++
            [biso_team_line (indentation_from lines (k + length body))
                            (format_email_for_label email); c])
         false true
         (printed st ++ [InsertingLabel (format_email_for_label email)]).
Proof.
  intros Ho Hbody Hc. simpl app.
  rewrite scan_from_cons. rewrite scan_line_opener by done.
  rewrite scan_from_app. rewrite (scan_from_inner _ _ _ _ body) by done.
  simpl. rewrite scan_from_cons, scan_from_nil.
  rewrite scan_line_closer by (done || by apply closer_not_opener).
  cbn [new_lines printed labels_block_found].
  replace (S (k + length body) - 1) with (k + length body) by lia.
  by rewrite <- !app_assoc.
Qed.

(** The whole file, cut at one of its blocks. *)
Lemma scan_lines_block lines email pre o body c post :
  lines = pre ++ [o] ++ body ++ [c] ++ post →
  is_opener o = true →
  Forall (λ l, is_inner l = true) body →
  is_closer c = true →
  ∃ out_post,
    new_lines (scan_lines lines email)
    = new_lines (scan_from lines email (Scan [] false false []) 0 pre) ++
      [o] ++ body ++
      [biso_team_line (indentation_from lines (length pre + length body))
                      (format_email_for_label email); c] ++ out_post ∧
    post `sublist_of` out_post ∧
    count_lines is_biso_team_line post ≤ count_lines is_biso_team_line out_post ∧
    (Forall (λ l, is_opener l = false) post → out_post = post).
Proof.
  intros Hlines Ho Hbody Hc. rewrite scan_lines_from.
  assert (scan_from lines email (Scan [] false false []) 0 lines
          = scan_from lines email (Scan [] false false []) 0
              (pre ++ ([o] ++ body ++ [c]) ++ post)) as ->.
  { f_equal. rewrite Hlines. by rewrite <- !app_assoc. }
  rewrite scan_from_app, scan_from_app, scan_from_block by done.
  rewrite !Nat.add_0_l.
  set (st := Scan _ false true _).
  set (k := (length pre + _)).
  destruct (scan_from_extends lines email st k post) as (added & Hn & Hs & Hcnt).
  exists added. rewrite Hn. subst st. simpl. split_and!; try done.
  - rewrite <- !app_assoc. f_equal. simpl. f_equal.
    by rewrite <- app_assoc.
  - intros Hpost. rewrite scan_from_plain in Hn by done. simpl in Hn.
    by apply app_inv_head in Hn.
Qed.


(** ** Indentation of the new line *)

Lemma indentation_from_none lines n :
  (∀ k l, 1 ≤ k ≤ n → lines !! k = Some l → last_label_pattern l = false) →
  indentation_from lines n = default_indentation.
Proof.
  induction n as [|n IH]; intros H; [done|]. simpl.
  destruct (lines !! S n) as [l|] eqn:Hl.
  - rewrite (H (S n) l) by (done || lia). apply IH.
    intros k l' Hk. apply H. lia.
  - apply IH. intros k l' Hk. apply H. lia.
Qed.

Lemma indentation_from_nearest lines n j l :
  1 ≤ j ≤ n →
  lines !! j = Some l →
  last_label_pattern l = true →
  (∀ k l', j < k ≤ n → lines !! k = Some l' → last_label_pattern l' = false) →
  indentation_from lines n = default default_indentation (leading_space l).
Proof.
  induction n as [|n IH]; intros Hj Hl Hm Hlater; [lia|]. simpl.
  destruct (decide (j = S n)) as [->|Hne].
  - by rewrite Hl, Hm.
  - destruct (lines !! S n) as [l'|] eqn:Hl'.
    + rewrite (Hlater (S n) l') by (done || lia). apply IH; try done; [lia|].
      intros k l'' Hk. apply Hlater. lia.
    + apply IH; try done; [lia|]. intros k l'' Hk. apply Hlater. lia.
Qed.

(** ** The block editor on a file *)

Lemma scan_lines_no_opener lines email :
  Forall (λ l, is_opener l = false) lines →
  scan_lines lines email = Scan lines false false [].
Proof.
  intros H. rewrite scan_lines_from. by rewrite scan_from_plain.
Qed.

(** C6.  When no line of the file has [labels = {] in it, the block editor
    reports that the block was not found and writes nothing: the file
    system, and so the file, is what it was. *)
Theorem no_labels_block_untouched linesep fs file_path raw writable
    project_name email :
  fs !! file_path = Some (File (Some raw) writable) →
  Forall (λ line, contains (lit "labels = {") line = false) (readlines raw) →
  update_terragrunt_file linesep fs file_path project_name email
  = (fs, [LabelsNotFound file_path]).
Proof.
  intros Hfile Hlines. unfold update_terragrunt_file. rewrite Hfile.
  by rewrite scan_lines_no_opener.
Qed.

Lemma no_labels_block_untouched_witness :
  update_terragrunt_file [LF] (sample_fs (text_of [LF] no_block_hcl))
    sample_path (lit "p1") sample_email
  = (sample_fs (text_of [LF] no_block_hcl), [LabelsNotFound sample_path]).
Proof.
  apply (no_labels_block_untouched [LF] _ _ (text_of [LF] no_block_hcl) true).
  - by vm_compute.
  - vm_compute. repeat constructor.
Defined.

(** C2, as the code has it.  Every opener arms the flag again: for any
    block of the file, the first or a later one (an opener, then lines that
    are neither openers nor closers, then a closer), the new line is put
    just before the closer of that block; the lines before and after the
    block are all kept. *)
Theorem every_block_edited lines email pre o body c post :
  lines = pre ++ [o] ++ body ++ [c] ++ post →
  is_opener o = true →
  Forall (λ l, is_inner l = true) body →
  is_closer c = true →
  ∃ out_pre out_post indentation,
    new_lines (scan_lines lines email)
    = out_pre ++ [o] ++ body ++
      [biso_team_line indentation (format_email_for_label email); c] ++
      out_post ∧
    pre `sublist_of` out_pre ∧ post `sublist_of` out_post.
Proof.
  intros Hlines Ho Hbody Hc.
  destruct (scan_lines_block lines email pre o body c post)
    as (out_post & Hout & Hpost & _); try done.
  destruct (scan_from_extends lines email (Scan [] false false []) 0 pre)
    as (out_pre & Hpre & Hsub & _).
  exists out_pre, out_post, (indentation_from lines (length pre + length body)).
  rewrite Hout, Hpre. done.
Qed.

(** C2, as the spec has it, fails: the second block of [two_blocks_hcl] is
    edited as well. *)
Lemma second_block_edited_too :
  let lines := readlines (text_of [LF] two_blocks_hcl) in
  let out := new_lines (scan_lines lines sample_email) in
  1 < count_lines is_opener lines ∧
  out = readlines (text_of [LF] two_blocks_hcl_edited) ∧
  out ≠ readlines (text_of [LF] two_blocks_hcl_first_only).
Proof. by vm_compute. Qed.

Lemma every_block_edited_witness :
  ∃ out_pre out_post indentation,
    new_lines (scan_lines (readlines (text_of [LF] two_blocks_hcl)) sample_email)
    = out_pre ++ [lit "    labels = {" ++ [LF]] ++
      [lit "      tier = " ++ quoted "web" ++ [LF]] ++
      [biso_team_line indentation (format_email_for_label sample_email);
       lit "    }" ++ [LF]] ++ out_post ∧
    readlines (text_of [LF] (take 6 two_blocks_hcl)) `sublist_of` out_pre ∧
    readlines (text_of [LF] (drop 9 two_blocks_hcl)) `sublist_of` out_post.
Proof.
  apply every_block_edited.
  - by vm_compute.
  - by vm_compute.
  - repeat constructor.
  - by vm_compute.
Defined.

(** C3, as the code has it.  The indentation of the new line comes from the
    nearest line above the closer that matches the label pattern, looked for
    upwards from the line just before the closer, and not from that one line
    only: when the nearest match is line [j], with [1 <= j], the new line
    has the leading white space of line [j], or four spaces when line [j]
    has none; when no line above the closer matches, it has four spaces. *)
Theorem indentation_from_nearest_label lines email pre o body c post :
  lines = pre ++ [o] ++ body ++ [c] ++ post →
  is_opener o = true →
  Forall (λ l, is_inner l = true) body →
  is_closer c = true →
  ∃ indentation out_post,
    new_lines (scan_lines lines email)
    = new_lines (scan_from lines email (Scan [] false false []) 0 pre) ++
      [o] ++ body ++
      [biso_team_line indentation (format_email_for_label email); c] ++
      out_post ∧
    (∀ j l,
       1 ≤ j < length (pre ++ [o] ++ body) →
       lines !! j = Some l →
       last_label_pattern l = true →
       (∀ k l', j < k < length (pre ++ [o] ++ body) →
                lines !! k = Some l' → last_label_pattern l' = false) →
       indentation = if decide (take_while is_space l = [])
                     then lit "    " else take_while is_space l) ∧
    ((∀ k l', k < length (pre ++ [o] ++ body) →
              lines !! k = Some l' → last_label_pattern l' = false) →
     indentation = lit "    ").
Proof.
  intros Hlines Ho Hbody Hc.
  destruct (scan_lines_block lines email pre o body c post)
    as (out_post & Hout & _); try done.
  exists (indentation_from lines (length pre + length body)), out_post.
  split; [done|]. rewrite !length_app. simpl length. split.
  - intros j l Hj Hl Hm Hlater.
    rewrite (indentation_from_nearest lines _ j l); try done; [|lia|].
    + unfold leading_space. case_decide as Hws; [by rewrite Hws|].
      by destruct (take_while is_space l).
    + intros k l' Hk. apply Hlater. lia.
  - intros Hnone. apply indentation_from_none.
    intros k l Hk. apply Hnone. lia.
Qed.

(** C3, as the spec has it, fails: in [comment_block_hcl] the line just
    before the closer is a comment, and the new line has the two spaces of
    the [name] line, which is outside the block, not four. *)
Lemma indentation_not_from_preceding_line_only :
  let lines := readlines (text_of [LF] comment_block_hcl) in
  let out := new_lines (scan_lines lines sample_email) in
  (is_closer <$> lines !! 4) = Some true ∧
  (last_label_pattern <$> lines !! 3) = Some false ∧
  (last_label_pattern <$> lines !! 1) = Some true ∧
  out = readlines (text_of [LF] (comment_block_hcl_edited "  ")) ∧
  out ≠ readlines (text_of [LF] (comment_block_hcl_edited "    ")).
Proof. by vm_compute. Qed.

Lemma indentation_from_nearest_label_witness :
  ∃ out_post,
    new_lines (scan_lines (readlines (text_of [LF] comment_block_hcl)) sample_email)
    = new_lines
        (scan_from (readlines (text_of [LF] comment_block_hcl)) sample_email
           (Scan [] false false []) 0
           (readlines (text_of [LF] (take 2 comment_block_hcl)))) ++
      [lit "  labels = {" ++ [LF]] ++ [lit "      # no labels yet" ++ [LF]] ++
      [biso_team_line (lit "  ") (format_email_for_label sample_email);
       lit "  }" ++ [LF]] ++ out_post.
Proof.
  destruct (indentation_from_nearest_label
              (readlines (text_of [LF] comment_block_hcl)) sample_email
              (readlines (text_of [LF] (take 2 comment_block_hcl)))
              (lit "  labels = {" ++ [LF])
              [lit "      # no labels yet" ++ [LF]]
              (lit "  }" ++ [LF])
              (readlines (text_of [LF] (drop 5 comment_block_hcl))))
    as (indentation & out_post & Hout & Hnear & _).
  - by vm_compute.
  - by vm_compute.
  - repeat constructor.
  - by vm_compute.
  - exists out_post. rewrite Hout.
    rewrite (Hnear 1 (lit "  name = " ++ quoted "p1" ++ [LF])).
    + done.
    + vm_compute. lia.
    + by vm_compute.
    + by vm_compute.
    + intros k l' Hk. vm_compute in Hk.
      assert (k = 2 ∨ k = 3) as [-> | ->] by lia;
        intros Hl'; vm_compute in Hl'; injection Hl' as <-; by vm_compute.
Defined.


(** ** The lookup loader *)

Lemma load_row_complete project_data row :
  complete row →
  load_row project_data row
  = Some (match usable_pair row with
          | Some (name, contact) => <[name := contact]> project_data
          | None => project_data
          end).
Proof.
  unfold complete, supplied, usable_pair, supplied, load_row.
  intros [[name Hn] [contact Hc]].
  destruct (row !! PROJECT_NAME_COL) as [[?|]|]; try done.
  destruct (row !! EMAIL_COL) as [[?|]|]; try done.
  simpl in *. by destruct (_ && _).
Qed.

Lemma load_row_incomplete project_data row :
  ¬ complete row → load_row project_data row = None.
Proof.
  unfold complete, supplied, load_row. intros H.
  destruct (row !! PROJECT_NAME_COL) as [[?|]|],
           (row !! EMAIL_COL) as [[?|]|]; simpl in *; try done;
    destruct H; split; eauto.
Qed.

Lemma load_rows_complete project_data rows :
  Forall complete rows →
  load_rows project_data rows
  = Some (foldl (λ d kv, <[kv.1 := kv.2]> d) project_data (usable_pairs rows)).
Proof.
  intros H. revert project_data.
  induction H as [|row rows Hrow _ IH]; intros project_data; [done|].
  simpl. rewrite load_row_complete by done. rewrite IH.
  unfold usable_pairs. simpl. by destruct (usable_pair row) as [[??]|].
Qed.

(** Filling a dictionary pair by pair: the last pair of a key is the one
    that stays. *)
Lemma lookup_foldl_insert (d : gmap str str) (l : list (str * str)) k v :
  foldl (λ d kv, <[kv.1 := kv.2]> d) d l !! k = Some v ↔
  ((∃ before after, l = before ++ (k, v) :: after ∧ (k ∉ after.*1)) ∨
   ((k ∉ l.*1) ∧ d !! k = Some v)).
Proof.
  induction l as [|[k' v'] l IH] using rev_ind.
  - simpl. split.
    + intros H. right. split; [apply not_elem_of_nil|done].
    + intros [(before & after & H & _)|[_ H]]; [|done].
      by destruct before.
  - rewrite foldl_app. simpl. destruct (decide (k' = k)) as [->|Hne].
    + rewrite lookup_insert_eq. split.
      * intros [= ->]. left. exists l, []. split; [done|apply not_elem_of_nil].
      * intros [(before & after & H & Hafter)|[Hnot _]].
        -- destruct after as [|x after _] using rev_ind.
           ++ apply app_inj_tail in H as [_ ?]. by simplify_eq.
           ++ rewrite app_comm_cons, app_assoc in H.
              apply app_inj_tail in H as [_ <-].
              rewrite fmap_app in Hafter. simpl in Hafter.
              exfalso. apply Hafter. apply elem_of_app. right. constructor.
        -- exfalso. apply Hnot. rewrite fmap_app. apply elem_of_app.
           right. constructor.
    + rewrite lookup_insert_ne by done. rewrite IH. split.
      * intros [(before & after & -> & Hafter)|[Hnot Hd]].
        -- left. exists before, (after ++ [(k', v')]). split.
           ++ by rewrite <- app_assoc.
           ++ rewrite fmap_app. simpl. intros [?|Hin%list_elem_of_singleton]%elem_of_app; done.
        -- right. split; [|done]. rewrite fmap_app. simpl.
           intros [?|Hin%list_elem_of_singleton]%elem_of_app; done.
      * intros [(before & after & H & Hafter)|[Hnot Hd]].
        -- destruct after as [|x after _] using rev_ind.
           ++ apply app_inj_tail in H as [_ ?]. by simplify_eq.
           ++ rewrite app_comm_cons, app_assoc in H.
              apply app_inj_tail in H as [-> <-]. left.
              exists before, after. split; [done|].
              rewrite fmap_app in Hafter. intros ?. apply Hafter.
              apply elem_of_app. by left.
        -- right. split; [|done]. rewrite fmap_app in Hnot.
           intros ?. apply Hnot. apply elem_of_app. by left.
Qed.

(** A record that is at least as long as the header has a value for every
    column of the header. *)
Lemma dict_row_supplied fieldnames row col :
  length fieldnames ≤ length row →
  col ∈ fieldnames →
  is_Some (supplied (dict_row fieldnames row) col).
Proof.
  intros Hlen Hcol. unfold supplied, dict_row.
  rewrite drop_ge by done. simpl.
  cut (∀ d : gmap str (option str),
         is_Some (foldl (λ d kv, <[kv.1 := Some kv.2]> d) d (zip fieldnames row)
                    !! col ≫= id)).
  { intros H. apply H. }
  revert row Hlen. induction fieldnames as [|f fieldnames IH]; intros row Hlen d.
  - by apply elem_of_nil in Hcol.
  - destruct row as [|x row]; simpl in Hlen; [lia|]. simpl.
    destruct (decide (col ∈ fieldnames)) as [Hin|Hnotin].
    + apply IH; [done|lia].
    + apply elem_of_cons in Hcol as [->|?]; [|done].
      assert (∀ (l : list (str * str)) (d : gmap str (option str)),
                f ∉ l.*1 → d !! f = Some (Some x) →
                foldl (λ d kv, <[kv.1 := Some kv.2]> d) d l !! f = Some (Some x))
        as Hkeep.
      { induction l as [|[k v] l IHl]; intros d' Hnot Hd'; [done|]. simpl.
        apply IHl.
        - intros ?. apply Hnot. simpl. by right.
        - rewrite lookup_insert_ne; [done|]. intros ->. apply Hnot. simpl. by left. }
      rewrite Hkeep; [by eexists| |by rewrite lookup_insert_eq].
      intros Hin. apply Hnotin. clear -Hin.
      revert row Hin. induction fieldnames as [|g fieldnames IH]; intros row Hin.
      * by apply elem_of_nil in Hin.
      * destruct row as [|y row]; [by apply elem_of_nil in Hin|].
        simpl in Hin. apply elem_of_cons in Hin as [->|Hin]; [by left|].
        right. by eapply IH.
Qed.

Lemma load_project_data_complete fieldnames records :
  PROJECT_NAME_COL ∈ fieldnames →
  EMAIL_COL ∈ fieldnames →
  Forall complete (dict_rows fieldnames records) →
  load_project_data (CsvRecords (fieldnames :: records))
  = let project_data :=
      foldl (λ d kv, <[kv.1 := kv.2]> d) ∅
            (usable_pairs (dict_rows fieldnames records)) in
    (Some project_data, [CsvLoaded (size project_data)]).
Proof.
  intros Hp He Hrows. unfold load_project_data.
  rewrite !bool_decide_eq_false_2 by (intros H; by apply H). simpl.
  by rewrite load_rows_complete.
Qed.

(** C4, as the code has it.  When the header has both columns and every
    row has a value for both, [load] returns a mapping that holds exactly
    the trimmed (name, contact) pairs of the rows in which both are not
    empty; of several rows with one name, the last gives the contact. *)
Theorem load_returns_trimmed_pairs fieldnames records :
  PROJECT_NAME_COL ∈ fieldnames →
  EMAIL_COL ∈ fieldnames →
  Forall complete (dict_rows fieldnames records) →
  ∃ project_data : gmap str str,
    load_project_data (CsvRecords (fieldnames :: records))
    = (Some project_data, [CsvLoaded (size project_data)]) ∧
    ∀ name contact,
      project_data !! name = Some contact ↔
      ∃ before after,
        usable_pairs (dict_rows fieldnames records)
        = before ++ (name, contact) :: after ∧
        (name ∉ after.*1).
Proof.
  intros Hp He Hrows. eexists. split.
  - by apply load_project_data_complete.
  - intros name contact. rewrite lookup_foldl_insert. split.
    + intros [?|[_ ?]]; [done|]. by rewrite lookup_empty in *.
    + by left.
Qed.

(** C4, as the spec has it, fails: with a row that is too short for the
    contact column, the load is given up, whatever the other rows hold. *)
Lemma short_row_fails_load :
  let records := [sample_header; [lit "p1"; lit "ana@teco.com.ar"]; [lit "p2"]] in
  PROJECT_NAME_COL ∈ sample_header ∧ EMAIL_COL ∈ sample_header ∧
  usable_pairs (dict_rows sample_header (drop 1 records))
  = [(lit "p1", lit "ana@teco.com.ar")] ∧
  load_project_data (CsvRecords records) = (None, [CsvReadError]).
Proof.
  split_and!; [| |by vm_compute..].
  - apply list_elem_of_here.
  - apply list_elem_of_further, list_elem_of_here.
Qed.

Lemma load_returns_trimmed_pairs_witness :
  ∃ project_data : gmap str str,
    load_project_data
      (CsvRecords [sample_header;
                   [lit " p1 "; lit "old@teco.com.ar"];
                   [];
                   [lit "p2"; lit "  "];
                   [lit "p1"; lit "ana@teco.com.ar "; lit "more"]])
    = (Some project_data, [CsvLoaded (size project_data)]) ∧
    project_data !! lit "p1" = Some (lit "ana@teco.com.ar") ∧
    project_data !! lit "p2" = None.
Proof.
  destruct (load_returns_trimmed_pairs sample_header
              [[lit " p1 "; lit "old@teco.com.ar"];
               [];
               [lit "p2"; lit "  "];
               [lit "p1"; lit "ana@teco.com.ar "; lit "more"]])
    as (project_data & Hload & Hpairs).
  - apply list_elem_of_here.
  - apply list_elem_of_further, list_elem_of_here.
  - unfold dict_rows. simpl. repeat constructor;
      apply dict_row_supplied; simpl; try lia;
      first [apply list_elem_of_here
            |apply list_elem_of_further, list_elem_of_here].
  - exists project_data. split_and!; [done| |].
    + apply Hpairs. exists [(lit "p1", lit "old@teco.com.ar")], [].
      split; [by vm_compute|apply not_elem_of_nil].
    + destruct (project_data !! lit "p2") as [contact|] eqn:Hp2; [|done].
      apply Hpairs in Hp2 as (before & after & Heq & _).
      vm_compute in Heq.
      destruct before as [|? [|? [|? before]]]; simplify_eq.
Defined.

(** C7.  When the header lacks the project-name column or the contact
    column, [load] reports the schema error and returns no mapping, and the
    script stops there: the walk is not entered, nothing else is printed
    and no file is changed. *)
Theorem missing_column_aborts linesep fieldnames records fs iac_path :
  PROJECT_NAME_COL ∉ fieldnames ∨ EMAIL_COL ∉ fieldnames →
  load_project_data (CsvRecords (fieldnames :: records))
  = (None, [CsvSchemaError fieldnames]) ∧
  script linesep (CsvRecords (fieldnames :: records)) fs iac_path
  = (fs, [CsvSchemaError fieldnames]).
Proof.
  intros H.
  assert (load_project_data (CsvRecords (fieldnames :: records))
          = (None, [CsvSchemaError fieldnames])) as Hload.
  { unfold load_project_data.
    destruct H as [H|H]; rewrite (bool_decide_eq_true_2 _ H); [done|].
    by rewrite orb_true_r. }
  split; [done|]. unfold script. by rewrite Hload.
Qed.

Lemma missing_column_aborts_witness :
  let records := [[PROJECT_NAME_COL; lit "TEAM"]; [lit "p1"; lit "ana@teco.com.ar"]] in
  let fs := sample_fs (text_of [LF] two_blocks_hcl) in
  load_project_data (CsvRecords records)
  = (None, [CsvSchemaError [PROJECT_NAME_COL; lit "TEAM"]]) ∧
  script [LF] (CsvRecords records) fs [lit "iac"]
  = (fs, [CsvSchemaError [PROJECT_NAME_COL; lit "TEAM"]]).
Proof.
  apply missing_column_aborts. right.
  intros H. vm_compute in H.
  repeat (apply elem_of_cons in H as [H|H]; [discriminate|]).
  by apply elem_of_nil in H.
Defined.

Lemma usable_pairs_none rows :
  Forall (λ row, ∃ name contact,
            supplied row PROJECT_NAME_COL = Some name ∧
            supplied row EMAIL_COL = Some contact ∧
            (strip name = [] ∨ strip contact = [])) rows →
  usable_pairs rows = [].
Proof.
  unfold usable_pairs.
  induction 1 as [|row rows (name & contact & Hn & Hc & Hempty) _ IH];
    [done|].
  cbn [omap list_omap]. rewrite IH. unfold usable_pair. rewrite Hn, Hc. simpl.
  destruct Hempty as [-> | ->]; simpl; [done|].
  by rewrite andb_false_r.
Qed.

(** C10, as the code has it.  When the header has both columns, every row
    has a value for both and in every row the trimmed name or the trimmed
    contact is empty (or there is no row), [load] returns the empty
    mapping; the script takes it for false and does not enter the walk:
    nothing else is printed and no file is changed. *)
Theorem no_usable_row_skips_walk linesep fieldnames records fs iac_path :
  PROJECT_NAME_COL ∈ fieldnames →
  EMAIL_COL ∈ fieldnames →
  Forall (λ row, ∃ name contact,
            supplied row PROJECT_NAME_COL = Some name ∧
            supplied row EMAIL_COL = Some contact ∧
            (strip name = [] ∨ strip contact = []))
         (dict_rows fieldnames records) →
  load_project_data (CsvRecords (fieldnames :: records))
  = (Some ∅, [CsvLoaded 0]) ∧
  script linesep (CsvRecords (fieldnames :: records)) fs iac_path
  = (fs, [CsvLoaded 0]).
Proof.
  intros Hp He Hrows.
  assert (usable_pairs (dict_rows fieldnames records) = []) as Hnone
    by by apply usable_pairs_none.
  assert (load_project_data (CsvRecords (fieldnames :: records))
          = (Some ∅, [CsvLoaded 0])) as Hload.
  { rewrite load_project_data_complete; try done.
    - by rewrite Hnone.
    - eapply Forall_impl; [exact Hrows|].
      intros row (name & contact & Hn & Hc & _). split; by eexists. }
  split; [done|]. unfold script. rewrite Hload. done.
Qed.

(** C10, as the spec has it, fails: a row that is one blank field has an
    empty trimmed name and no contact, and the load is given up instead of
    returning the empty mapping. *)
Lemma blank_short_row_fails_load :
  let row := dict_row sample_header [lit " "] in
  (strip <$> supplied row PROJECT_NAME_COL) = Some [] ∧
  load_project_data (CsvRecords [sample_header; [lit " "]])
  = (None, [CsvReadError]) ∧
  load_project_data (CsvRecords [sample_header; [lit " "]])
  ≠ (Some ∅, [CsvLoaded 0]).
Proof. by vm_compute. Qed.

Lemma no_usable_row_skips_walk_witness :
  let records := [sample_header; [lit "p1"; lit " "]; [lit ""; lit "ana@teco.com.ar"]] in
  let fs := sample_fs (text_of [LF] two_blocks_hcl) in
  load_project_data (CsvRecords records) = (Some ∅, [CsvLoaded 0]) ∧
  script [LF] (CsvRecords records) fs [lit "iac"] = (fs, [CsvLoaded 0]).
Proof.
  apply no_usable_row_skips_walk.
  - apply list_elem_of_here.
  - apply list_elem_of_further, list_elem_of_here.
  - unfold dict_rows. simpl. repeat constructor.
    + exists (lit "p1"), (lit " "). by vm_compute; auto.
    + exists (lit ""), (lit "ana@teco.com.ar"). by vm_compute; auto.
Defined.

(** ** Line terminators *)


Lemma universal_newlines_id raw : CR ∉ raw → universal_newlines raw = raw.
Proof.
  induction raw as [|c rest IH]; intros H; [done|]. simpl.
  destruct (c =? CR)%N eqn:Hc.
  - apply N.eqb_eq in Hc as ->. exfalso. apply H. by left.
  - f_equal. apply IH. intros ?. apply H. by right.
Qed.

Lemma concat_split_lines text : concat (split_lines text) = text.
Proof.
  induction text as [|c rest IH]; [done|]. simpl.
  destruct (c =? LF)%N; simpl; [by rewrite IH|].
  destruct (split_lines rest) as [|l ls]; simpl in *; by rewrite <- IH.
Qed.




Lemma written_concat linesep ls :
  written linesep ls = concat (written_line linesep <$> ls).
Proof.
  unfold written, written_line. induction ls as [|l ls IH]; [done|].
  simpl. by rewrite bind_app, IH.
Qed.


Lemma written_line_cons linesep c l :
  written_line linesep (c :: l)
  = (if (c =? LF)%N then linesep else [c]) ++ written_line linesep l.
Proof. done. Qed.


Lemma written_line_lf l : written_line [LF] l = l.
Proof.
  induction l as [|c l IH]; [done|].
  rewrite written_line_cons, IH. destruct (c =? LF)%N eqn:Hc; [|done].
  by apply N.eqb_eq in Hc as ->.
Qed.


(** The flag [labels_block_found]: set by the first opener, never reset. *)
Lemma labels_block_found_scan_from lines email st k rest :
  labels_block_found (scan_from lines email st k rest)
  = labels_block_found st || existsb is_opener rest.
Proof.
  revert st k. induction rest as [|a rest IH]; intros st k.
  - by rewrite scan_from_nil, orb_false_r.
  - rewrite scan_from_cons, IH. simpl.
    destruct (is_opener a) eqn:Ho.
    + rewrite scan_line_opener by done. simpl. by rewrite orb_true_r.
    + destruct (in_labels_block st && is_closer a) eqn:Hc.
      * apply andb_true_iff in Hc as [??].
        by rewrite scan_line_closer.
      * by rewrite scan_line_other.
Qed.

Lemma update_terragrunt_file_found linesep fs file_path raw writable
    project_name email :
  fs !! file_path = Some (File (Some raw) writable) →
  existsb is_opener (readlines raw) = true →
  update_terragrunt_file linesep fs file_path project_name email
  = let st := scan_lines (readlines raw) email in
    if writable then
      (<[file_path := File (Some (written linesep (new_lines st))) true]> fs,
       printed st ++ [FileUpdated])
    else (fs, printed st ++ [FileError file_path]).
Proof.
  intros Hfile Hopen. unfold update_terragrunt_file. rewrite Hfile.
  rewrite scan_lines_from, labels_block_found_scan_from, Hopen.
  by destruct writable.
Qed.

(** Every line written is a line read or a new [biso_team] line. *)
Lemma scan_from_origin lines email st k rest l :
  l ∈ new_lines (scan_from lines email st k rest) →
  l ∈ new_lines st ∨ l ∈ rest ∨
  ∃ indentation, l = biso_team_line indentation (format_email_for_label email).
Proof.
  revert st k. induction rest as [|a rest IH]; intros st k.
  - rewrite scan_from_nil. by left.
  - rewrite scan_from_cons. intros [Hl|[Hl|Hl]]%IH; [|right; left; by right|by auto].
    destruct (is_opener a) eqn:Ho;
      [rewrite scan_line_opener in Hl by done
      |destruct (in_labels_block st && is_closer a) eqn:Hc;
       [apply andb_true_iff in Hc as [??];
        rewrite scan_line_closer in Hl by done
       |rewrite scan_line_other in Hl by done]];
      simpl in Hl; apply elem_of_app in Hl as [Hl|Hl]; auto.
    + apply list_elem_of_singleton in Hl as ->. right. left. by left.
    + apply elem_of_cons in Hl as [->|Hl]; [by eauto|].
      apply list_elem_of_singleton in Hl as ->. right. left. by left.
    + apply list_elem_of_singleton in Hl as ->. right. left. by left.
Qed.

(** ** Reading again what was written *)




























(** ** The walk *)

Lemma update_terragrunt_file_files linesep fs file_path project_name email q :
  (update_terragrunt_file linesep fs file_path project_name email).1 !! q
  ≠ fs !! q →
  q = file_path ∧ has_labels_block fs file_path = true.
Proof.
  unfold update_terragrunt_file, has_labels_block.
  destruct (fs !! file_path) as [[|[raw|] writable]|] eqn:Hfile; simpl;
    try done.
  rewrite scan_lines_from, labels_block_found_scan_from. simpl.
  destruct (existsb is_opener (readlines raw)); simpl; [|done].
  destruct writable; simpl; [|done].
  destruct (decide (file_path = q)) as [->|Hne]; [done|].
  by rewrite lookup_insert_ne.
Qed.

Lemma lookup_hit_ext fs1 fs2 project_data p :
  fs1 !! p = fs2 !! p →
  lookup_hit fs1 project_data p = lookup_hit fs2 project_data p.
Proof. unfold lookup_hit, read_text. by intros ->. Qed.

Lemma has_labels_block_ext fs1 fs2 p :
  fs1 !! p = fs2 !! p → has_labels_block fs1 p = has_labels_block fs2 p.
Proof. unfold has_labels_block. by intros ->. Qed.

(** One file of the walk: it is counted as processed; it is counted as
    modified when its name is a key of the mapping, whether or not it is
    then changed; it is changed only when, besides, it has an opener. *)
Lemma visit_spec linesep project_data w p :
  let w' := visit linesep project_data w p in
  files_processed w' = S (files_processed w) ∧
  files_modified w'
  = files_modified w + (if lookup_hit (files w) project_data p then 1 else 0) ∧
  ∀ q, files w' !! q ≠ files w !! q →
       q = p ∧ lookup_hit (files w) project_data p = true ∧
       has_labels_block (files w) p = true.
Proof.
  unfold visit, lookup_hit.
  destruct (read_text (files w) p) as [content|]; simpl; [|by auto with lia].
  destruct (project_name_pattern content) as [name|]; simpl; [|by auto with lia].
  destruct (project_data !! name) as [email|] eqn:Hname; simpl.
  - split_and!; [done|lia|].
    intros q Hq. apply update_terragrunt_file_files in Hq as [-> ?]. done.
  - split_and!; [done|lia|done].
Qed.

Lemma walk_spec linesep project_data fs w l :
  NoDup l →
  (∀ q, q ∈ l → files w !! q = fs !! q) →
  let w' := foldl (visit linesep project_data) w l in
  files_processed w' = files_processed w + length l ∧
  files_modified w'
  = files_modified w + length (filter (λ p, lookup_hit fs project_data p) l) ∧
  ∀ q, files w' !! q ≠ files w !! q →
       q ∈ l ∧ lookup_hit fs project_data q = true ∧
       has_labels_block fs q = true.
Proof.
  intros Hnodup. revert w.
  induction Hnodup as [|p l Hp Hnodup IH]; intros w Hsame; simpl.
  - split_and!; [lia|lia|done].
  - destruct (visit_spec linesep project_data w p) as (Hproc & Hmod & Hfiles).
    assert (∀ q, q ∈ l →
              files (visit linesep project_data w p) !! q = fs !! q) as Hsame'.
    { intros q Hq. rewrite <- (Hsame q) by by right.
      destruct (decide (files (visit linesep project_data w p) !! q
                        = files w !! q)) as [|Hne]; [done|].
      apply Hfiles in Hne as [-> _]. done. }
    destruct (IH _ Hsame') as (Hproc' & Hmod' & Hfiles').
    assert (files w !! p = fs !! p) as Hp' by (apply Hsame; by left).
    rewrite (lookup_hit_ext _ fs) in Hmod by done.
    split_and!.
    + rewrite Hproc', Hproc. lia.
    + rewrite Hmod', Hmod, filter_cons.
      destruct (lookup_hit fs project_data p) eqn:Hhit.
      * rewrite decide_True by done. simpl. lia.
      * rewrite decide_False by (simpl; tauto). lia.
    + intros q Hq.
      destruct (decide (files (foldl (visit linesep project_data)
                                 (visit linesep project_data w p) l) !! q
                        = files (visit linesep project_data w p) !! q))
        as [Heq|Hne].
      * rewrite Heq in Hq. apply Hfiles in Hq as (-> & Hhit & Hblock).
        rewrite (lookup_hit_ext _ fs) in Hhit by done.
        rewrite (has_labels_block_ext _ fs) in Hblock by done.
        split_and!; [by left|done|done].
      * apply Hfiles' in Hne as (? & ? & ?). split_and!; [by right|done|done].
Qed.

Lemma glob_NoDup fs iac_path : NoDup (glob fs iac_path).
Proof. unfold glob. apply NoDup_filter, NoDup_fst_map_to_list. Qed.

(** The summary of a walk: every path of the glob is counted as processed,
    and every one whose project name is a key of the mapping as modified;
    a file is changed only if it is such a one and has an opener. *)
Lemma main_summary linesep fs iac_path project_data :
  is_dir fs iac_path = true →
  ∃ out,
    (main linesep fs iac_path project_data).2
    = out ++ [Summary (length (glob fs iac_path))
                      (length (filter (λ p, lookup_hit fs project_data p)
                                      (glob fs iac_path)))] ∧
    ∀ q, (main linesep fs iac_path project_data).1 !! q ≠ fs !! q →
         q ∈ glob fs iac_path ∧ lookup_hit fs project_data q = true ∧
         has_labels_block fs q = true.
Proof.
  intros Hdir. unfold main. rewrite Hdir. simpl.
  destruct (walk_spec linesep project_data fs
              (Walk fs [SearchStarted iac_path] 0 0) (glob fs iac_path))
    as (Hproc & Hmod & Hfiles); [apply glob_NoDup|done|].
  simpl in *. rewrite Hproc, Hmod. eauto.
Qed.

(** C1, at the input on which the code departs from it: the one file of the
    walk has its name in the mapping and no [labels] block; the editor
    reports that the block was not found and leaves the file as it is, and
    the summary counts the file as modified all the same. *)
Theorem unmodified_file_counted_as_modified :
  let fs := sample_fs (text_of [LF] no_block_hcl) in
  lookup_hit fs sample_project_data sample_path = true ∧
  has_labels_block fs sample_path = false ∧
  main [LF] fs [lit "iac"] sample_project_data
  = (fs, [SearchStarted [lit "iac"];
          MatchFound (lit "p1") sample_path;
          LabelsNotFound sample_path;
          Summary 1 1]).
Proof. by vm_compute. Qed.

(** * Further properties of the code *)

(** ** The formatter *)

Lemma contains_cons_other p a c s :
  a ≠ c → contains (a :: p) (c :: s) = contains (a :: p) s.
Proof.
  intros Hne. cbn [contains starts_with].
  destruct (N.eqb_spec a c) as [?|_]; [done|]. done.
Qed.

Lemma starts_with_cons a p c s :
  starts_with (a :: p) (c :: s) = (a =? c)%N && starts_with p s.
Proof. done. Qed.

(** A string free of [@] and [-] that begins the formatted text begins the
    text itself. *)
Lemma starts_with_format_inv p s :
  Forall (λ c, c ≠ 64%N ∧ c ≠ 45%N) p →
  starts_with p (format_email_for_label s) = true →
  starts_with p s = true.
Proof.
  unfold format_email_for_label. intros Hp. revert s.
  induction Hp as [|a p [Ha Ha'] _ IH]; intros s; [done|].
  destruct s as [|c s]; [done|].
  destruct (starts_with teco_domain (c :: s)) eqn:Hs.
  - apply starts_with_true in Hs as [t Hs]. rewrite Hs.
    rewrite replace_occurrence by done.
    let v := eval vm_compute in teco_label in change teco_label with v.
    cbn [app starts_with].
    destruct (N.eqb_spec a 45); [done|]. done.
  - rewrite replace_no_occurrence_here by done. cbn [starts_with].
    intros [->%N.eqb_eq H]%andb_true_iff. rewrite N.eqb_refl. simpl. by apply IH.
Qed.

Lemma format_email_for_label_no_domain_aux n s :
  length s ≤ n → contains teco_domain (format_email_for_label s) = false.
Proof.
  revert s. induction n as [|n IH]; intros s Hn.
  - destruct s; [done|simpl in Hn; lia].
  - destruct s as [|c s]; [done|].
    destruct (starts_with teco_domain (c :: s)) eqn:Hs.
    + apply starts_with_true in Hs as [t Hs]. rewrite Hs.
      unfold format_email_for_label. rewrite replace_occurrence by done.
      assert (length t ≤ n) as Ht.
      { apply (f_equal length) in Hs. rewrite length_app in Hs.
        vm_compute (length teco_domain) in Hs. simpl in *. lia. }
      specialize (IH t Ht). unfold format_email_for_label in IH.
      let v := eval vm_compute in teco_label in change teco_label with v.
      let v := eval vm_compute in teco_domain in change teco_domain with v in *.
      cbn [app]. by rewrite !contains_cons_other.
    + unfold format_email_for_label in *.
      rewrite replace_no_occurrence_here by done.
      cbn [contains]. rewrite orb_false_iff. split.
      * apply not_true_is_false. intros H.
        let v := eval vm_compute in teco_domain in
          change teco_domain with v in H, Hs.
        rewrite starts_with_cons in H, Hs.
        apply andb_true_iff in H as [Hc H]. rewrite Hc in Hs.
        fold (format_email_for_label s) in H.
        apply (starts_with_format_inv [116; 101; 99; 111; 46; 99; 111; 109; 46; 97; 114]%N) in H.
        -- cbn [andb] in Hs. congruence.
        -- repeat constructor; done.
      * apply IH. simpl in Hn. lia.
Qed.

(** X1.  The formatted identifier never holds the literal [@teco.com.ar]
    any more, whatever the identifier was, so formatting a second time
    changes nothing. *)
Theorem format_email_for_label_removes_domain email :
  contains teco_domain (format_email_for_label email) = false ∧
  format_email_for_label (format_email_for_label email)
  = format_email_for_label email.
Proof.
  assert (contains teco_domain (format_email_for_label email) = false) as H
    by by eapply format_email_for_label_no_domain_aux.
  split; [done|]. by apply replace_absent.
Qed.

(** ** The loop of the block editor, further *)

(** X7.  The indentation of a new line is never empty and is white space
    only: the leading white space of a label line, or four spaces. *)
Theorem indentation_is_white_space lines n :
  indentation_from lines n ≠ [] ∧
  Forall (λ c, is_space c = true) (indentation_from lines n).
Proof.
  induction n as [|n IH]; simpl.
  - split; [done|]. by vm_compute; repeat constructor.
  - destruct (lines !! S n) as [l|]; [|done].
    destruct (last_label_pattern l); [|done].
    unfold leading_space.
    pose proof (take_while_Forall is_space l) as Hws.
    destruct (take_while is_space l) as [|c ws]; simpl.
    + split; [done|]. by vm_compute; repeat constructor.
    + done.
Qed.

(** X8.  A file with one block whose last line is a label line with leading
    white space: the new line is put between that label line and the
    closer, with the same leading white space, and every other line is as
    it was. *)
Theorem label_indentation_copied lines email pre o body l c post :
  lines = pre ++ [o] ++ body ++ [l] ++ [c] ++ post →
  Forall (λ x, is_opener x = false) pre →
  is_opener o = true →
  Forall (λ x, is_inner x = true) (body ++ [l]) →
  is_closer c = true →
  Forall (λ x, is_opener x = false) post →
  last_label_pattern l = true →
  take_while is_space l ≠ [] →
  new_lines (scan_lines lines email)
  = pre ++ [o] ++ body ++
    [l; biso_team_line (take_while is_space l) (format_email_for_label email);
     c] ++ post.
Proof.
  intros Hlines Hpre Ho Hbody Hc Hpost Hl Hws.
  destruct (scan_lines_block lines email pre o (body ++ [l]) c post)
    as (out_post & Hout & _ & _ & Hplain); try done.
  { by rewrite Hlines, <- !app_assoc. }
  rewrite Hout, (Hplain Hpost), scan_from_plain by done. cbn [new_lines app].
  rewrite (indentation_from_nearest lines _ (length pre + length (body ++ [l])) l);
    try done.
  - unfold leading_space.
    destruct (take_while is_space l) eqn:Hw; [done|].
    cbn [default]. rewrite <- !app_assoc. done.
  - rewrite length_app. simpl. lia.
  - rewrite Hlines.
    replace (pre ++ [o] ++ body ++ [l] ++ [c] ++ post)
      with ((pre ++ [o] ++ body) ++ l :: [c] ++ post)
      by (by rewrite <- !app_assoc).
    apply list_lookup_middle. rewrite !length_app. simpl. lia.
  - intros k l' Hk. lia.
Qed.

Lemma label_indentation_copied_witness :
  new_lines (scan_lines (readlines (text_of [LF] one_block_hcl)) sample_email)
  = readlines (text_of [LF] (take 2 one_block_hcl)) ++
    [lit "  labels = {" ++ [LF]] ++ [] ++
    [lit "    env = " ++ quoted "prod" ++ [LF];
     biso_team_line
       (take_while is_space (lit "    env = " ++ quoted "prod" ++ [LF]))
       (format_email_for_label sample_email);
     lit "  }" ++ [LF]] ++
    readlines (text_of [LF] (drop 5 one_block_hcl)).
Proof.
  apply label_indentation_copied.
  - by vm_compute.
  - vm_compute. repeat constructor.
  - by vm_compute.
  - repeat constructor.
  - by vm_compute.
  - vm_compute. repeat constructor.
  - by vm_compute.
  - by vm_compute.
Defined.

(** What the loop does to its counters: every line added comes with one
    message, and costs one opener. *)
Lemma scan_from_counts lines email st k rest :
  let st' := scan_from lines email st k rest in
  ∃ more,
    printed st' = printed st ++ more ∧
    Forall (λ e, e = InsertingLabel (format_email_for_label email)) more ∧
    length (new_lines st') = length (new_lines st) + length rest + length more ∧
    length more + (if in_labels_block st' then 1 else 0)
    ≤ (if in_labels_block st then 1 else 0) + count_lines is_opener rest.
Proof.
  revert st k. induction rest as [|a rest IH]; intros st k.
  - exists []. rewrite scan_from_nil, app_nil_r. simpl. split_and!; [done..|lia|lia].
  - cbn zeta. rewrite scan_from_cons.
    destruct (IH (scan_line lines email st k a) (S k))
      as (more & Hp & Hall & Hlen & Hcnt).
    unfold count_lines in *. rewrite filter_cons.
    destruct (is_opener a) eqn:Ho;
      [rewrite scan_line_opener in * by done
      |destruct (in_labels_block st && is_closer a) eqn:Hc;
       [apply andb_true_iff in Hc as [Hin ?];
        rewrite scan_line_closer in * by done
       |rewrite scan_line_other in * by done]];
      cbn [printed new_lines in_labels_block] in *.
    + exists more. rewrite decide_True by done.
      rewrite length_app in Hlen. simpl in *.
      split_and!; [done|done|lia|]. destruct (in_labels_block st); lia.
    + exists (InsertingLabel (format_email_for_label email) :: more).
      rewrite decide_False by (simpl; tauto).
      rewrite length_app in Hlen. rewrite <- app_assoc in Hp.
      rewrite Hin. simpl in *.
      split_and!; [done|by constructor|lia|lia].
    + exists more. rewrite decide_False by (simpl; tauto).
      rewrite length_app in Hlen. simpl in *.
      split_and!; [done|done|lia|lia].
Qed.

(** X9.  The editor prints one inserting message for every line it adds
    and adds nothing else; it adds at most one line for each opener line
    of the file. *)
Theorem one_message_per_inserted_line lines email :
  let st := scan_lines lines email in
  length (new_lines st) = length lines + length (printed st) ∧
  Forall (λ e, e = InsertingLabel (format_email_for_label email)) (printed st) ∧
  length (printed st) ≤ count_lines is_opener lines.
Proof.
  cbn zeta. rewrite scan_lines_from.
  destruct (scan_from_counts lines email (Scan [] false false []) 0 lines)
    as (more & Hp & Hall & Hlen & Hcnt).
  cbn zeta in *. simpl in Hp, Hlen, Hcnt. rewrite Hp.
  split_and!; [lia|done|].
  destruct (in_labels_block _); lia.
Qed.

Lemma scan_from_no_closer lines email st k rest :
  Forall (λ l, is_closer l = false) rest →
  scan_from lines email st k rest
  = Scan (new_lines st ++ rest)
         (in_labels_block st || existsb is_opener rest)
         (labels_block_found st || existsb is_opener rest)
         (printed st).
Proof.
  intros H. revert st k. induction H as [|a rest Ha _ IH]; intros st k.
  - rewrite scan_from_nil, app_nil_r. simpl. rewrite !orb_false_r.
    by destruct st.
  - rewrite scan_from_cons, IH. simpl existsb.
    destruct (is_opener a) eqn:Ho.
    + rewrite scan_line_opener by done. simpl.
      rewrite <- app_assoc, !orb_true_r. done.
    + rewrite scan_line_other by (by rewrite ?Ha, ?andb_false_r). simpl.
      by rewrite <- app_assoc.
Qed.

Lemma written_lf_readlines raw :
  written [LF] (readlines raw) = universal_newlines raw.
Proof.
  rewrite written_concat. unfold readlines.
  rewrite <- (concat_split_lines (universal_newlines raw)) at 2. f_equal.
  induction (split_lines (universal_newlines raw)) as [|l ls IH]; [done|].
  by rewrite fmap_cons, written_line_lf, IH.
Qed.

(** X10.  A file with an opener line and no closer line (no line that is
    [}] once trimmed) gets no new line.  When it can be opened for writing
    it is written again all the same, from the lines read, and reported as
    updated; when it cannot, nothing is written and the error is reported.
    Where [os.linesep] is LF and the file has no CR, what is written is
    what the file held: the file system is what it was. *)
Theorem unclosed_block_rewritten_as_read linesep fs file_path raw writable
    project_name email :
  fs !! file_path = Some (File (Some raw) writable) →
  existsb is_opener (readlines raw) = true →
  Forall (λ l, is_closer l = false) (readlines raw) →
  update_terragrunt_file linesep fs file_path project_name email
  = (if writable
     then (<[file_path := File (Some (written linesep (readlines raw))) true]> fs,
           [FileUpdated])
     else (fs, [FileError file_path])) ∧
  (linesep = [LF] → CR ∉ raw →
   (update_terragrunt_file linesep fs file_path project_name email).1 = fs).
Proof.
  intros Hfile Hopen Hclose.
  assert (update_terragrunt_file linesep fs file_path project_name email
          = (if writable
             then (<[file_path :=
                       File (Some (written linesep (readlines raw))) true]> fs,
                   [FileUpdated])
             else (fs, [FileError file_path]))) as Hupd.
  { rewrite (update_terragrunt_file_found _ _ _ raw writable) by done.
    cbn zeta. by rewrite scan_lines_from, scan_from_no_closer. }
  split; [done|]. intros -> Hcr. rewrite Hupd.
  destruct writable; simpl; [|done].
  rewrite written_lf_readlines, universal_newlines_id by done.
  by apply insert_id.
Qed.

Lemma unclosed_block_rewritten_as_read_witness :
  let raw := text_of [LF] (take 4 one_block_hcl) in
  update_terragrunt_file [LF] (sample_fs raw) sample_path (lit "p1") sample_email
  = (<[sample_path := File (Some (written [LF] (readlines raw))) true]>
       (sample_fs raw),
     [FileUpdated]) ∧
  (update_terragrunt_file [LF] (sample_fs raw) sample_path (lit "p1")
     sample_email).1 = sample_fs raw.
Proof.
  intros raw.
  destruct (unclosed_block_rewritten_as_read [LF] (sample_fs raw) sample_path
              raw true (lit "p1") sample_email) as [Hupd Hsame].
  - by vm_compute.
  - by vm_compute.
  - vm_compute. repeat constructor.
  - split; [done|]. apply Hsame; [done|].
    apply (bool_decide_unpack _). by vm_compute.
Defined.

(** ** The lookup loader, further *)

Lemma drop_while_length f s : length (drop_while f s) ≤ length s.
Proof.
  induction s as [|c s IH]; simpl; [done|]. destruct (f c); simpl; lia.
Qed.

Lemma drop_while_idemp f s : drop_while f (drop_while f s) = drop_while f s.
Proof.
  induction s as [|c s IH]; simpl; [done|].
  destruct (f c) eqn:Hc; [done|]. simpl. by rewrite Hc.
Qed.

Lemma drop_while_fixed_prefix f u w :
  drop_while f (u ++ w) = u ++ w → drop_while f u = u.
Proof.
  destruct u as [|c u]; [done|]. simpl. destruct (f c); [|done].
  intros H. pose proof (drop_while_length f (u ++ w)) as Hlen.
  rewrite H in Hlen. simpl in Hlen. lia.
Qed.

(** Trimming a trimmed string changes nothing. *)
Lemma strip_idemp s : strip (strip s) = strip s.
Proof.
  unfold strip, rstrip, lstrip.
  set (t := drop_while is_space s).
  set (u := reverse (drop_while is_space (reverse t))).
  assert (drop_while is_space (reverse u) = reverse u) as Hb.
  { unfold u. by rewrite reverse_involutive, drop_while_idemp. }
  assert (drop_while is_space u = u) as Ha.
  { apply (drop_while_fixed_prefix _ _
             (reverse (take_while is_space (reverse t)))).
    unfold u. rewrite <- reverse_app, take_drop_while, reverse_involutive.
    apply drop_while_idemp. }
  by rewrite Ha, Hb, reverse_involutive.
Qed.

Lemma load_row_trimmed project_data row project_data' :
  load_row project_data row = Some project_data' →
  map_Forall (λ name contact, name ≠ [] ∧ contact ≠ [] ∧
                strip name = name ∧ strip contact = contact) project_data →
  map_Forall (λ name contact, name ≠ [] ∧ contact ≠ [] ∧
                strip name = name ∧ strip contact = contact) project_data'.
Proof.
  unfold load_row. intros Hrow Hall.
  destruct (row !! PROJECT_NAME_COL) as [[name|]|]; try done.
  destruct (row !! EMAIL_COL) as [[contact|]|]; try done.
  destruct (bool_decide (strip name ≠ [])) eqn:Hn;
    destruct (bool_decide (strip contact ≠ [])) eqn:Hc;
    simpl in Hrow; injection Hrow as <-; try done.
  apply bool_decide_eq_true in Hn, Hc.
  apply map_Forall_insert_2; [|done]. by rewrite !strip_idemp.
Qed.

Lemma load_rows_trimmed project_data rows project_data' :
  load_rows project_data rows = Some project_data' →
  map_Forall (λ name contact, name ≠ [] ∧ contact ≠ [] ∧
                strip name = name ∧ strip contact = contact) project_data →
  map_Forall (λ name contact, name ≠ [] ∧ contact ≠ [] ∧
                strip name = name ∧ strip contact = contact) project_data'.
Proof.
  revert project_data. induction rows as [|row rows IH]; intros d; simpl.
  - by intros [= ->].
  - destruct (load_row d row) as [d'|] eqn:Hrow; [|done].
    intros Hrows Hall. eapply IH; [done|].
    by eapply load_row_trimmed.
Qed.

(** X4.  Whatever the lookup file, every project name and every contact of
    a mapping that [load] returns is non-empty and trimmed (it has no white
    space at either end). *)
Theorem loaded_pairs_are_trimmed csv project_data name contact :
  (load_project_data csv).1 = Some project_data →
  project_data !! name = Some contact →
  name ≠ [] ∧ contact ≠ [] ∧ strip name = name ∧ strip contact = contact.
Proof.
  unfold load_project_data. intros Hload Hname.
  destruct csv as [| |[|fieldnames records]]; try done.
  destruct (_ || _); [done|].
  destruct (load_rows ∅ (dict_rows fieldnames records)) as [d|] eqn:Hrows;
    [|done].
  injection Hload as ->.
  eapply (load_rows_trimmed ∅) in Hrows; [|apply map_Forall_empty].
  by apply (Hrows name contact).
Qed.

Lemma loaded_pairs_are_trimmed_witness :
  lit "p1" ≠ [] ∧ lit "ana@teco.com.ar" ≠ [] ∧
  strip (lit "p1") = lit "p1" ∧
  strip (lit "ana@teco.com.ar") = lit "ana@teco.com.ar".
Proof.
  apply (loaded_pairs_are_trimmed
           (CsvRecords [sample_header; [lit " p1 "; lit "ana@teco.com.ar  "]])
           {[ lit "p1" := lit "ana@teco.com.ar" ]}).
  - by vm_compute.
  - by vm_compute.
Defined.

Lemma size_foldl_insert (d : gmap str str) (l : list (str * str)) :
  size (foldl (λ d kv, <[kv.1 := kv.2]> d) d l) ≤ size d + length l.
Proof.
  revert d. induction l as [|[k v] l IH]; intros d; simpl; [lia|].
  etransitivity; [apply IH|].
  destruct (d !! k) eqn:Hk.
  - rewrite map_size_insert_Some by done. lia.
  - rewrite map_size_insert_None by done. lia.
Qed.

Lemma length_usable_pairs rows : length (usable_pairs rows) ≤ length rows.
Proof.
  unfold usable_pairs. induction rows as [|row rows IH]; [done|].
  cbn [omap list_omap]. destruct (usable_pair row); simpl; lia.
Qed.

(** X5.  When the header has both columns and no record is shorter than the
    header (blank lines and records with fields to spare are fine), [load]
    succeeds, and prints the number of projects loaded, which is at most
    the number of records. *)
Theorem load_succeeds_on_full_rows fieldnames records :
  PROJECT_NAME_COL ∈ fieldnames →
  EMAIL_COL ∈ fieldnames →
  Forall (λ r, r = [] ∨ length fieldnames ≤ length r) records →
  ∃ project_data : gmap str str,
    load_project_data (CsvRecords (fieldnames :: records))
    = (Some project_data, [CsvLoaded (size project_data)]) ∧
    size project_data ≤ length records.
Proof.
  intros Hp He Hfull. eexists. split.
  - apply load_project_data_complete; [done..|].
    unfold dict_rows. apply Forall_fmap, Forall_forall.
    intros r [Hne Hr]%list_elem_of_filter.
    apply (proj1 (Forall_forall _ _) Hfull) in Hr as [?|Hlen]; [done|].
    split; by apply dict_row_supplied.
  - etransitivity; [apply size_foldl_insert|].
    rewrite map_size_empty. simpl.
    etransitivity; [apply length_usable_pairs|].
    unfold dict_rows. rewrite length_fmap. apply length_filter.
Qed.

Lemma load_succeeds_on_full_rows_witness :
  ∃ project_data : gmap str str,
    load_project_data
      (CsvRecords [sample_header;
                   [lit "p1"; lit "ana@teco.com.ar"; lit "spare"];
                   [];
                   [lit "p1"; lit "eva@teco.com.ar"]])
    = (Some project_data, [CsvLoaded (size project_data)]) ∧
    size project_data ≤ 3.
Proof.
  apply (load_succeeds_on_full_rows sample_header
           [[lit "p1"; lit "ana@teco.com.ar"; lit "spare"];
            [];
            [lit "p1"; lit "eva@teco.com.ar"]]).
  - apply list_elem_of_here.
  - apply list_elem_of_further, list_elem_of_here.
  - repeat constructor; simpl; first [by left | right; lia].
Defined.

Lemma load_rows_incomplete project_data rows :
  Exists (λ row, ¬ complete row) rows → load_rows project_data rows = None.
Proof.
  intros H. revert project_data.
  induction H as [row rows Hrow|row rows _ IH]; intros d; simpl.
  - by rewrite load_row_incomplete.
  - destruct (load_row d row); [apply IH|done].
Qed.

(** X6.  When the header has both columns and one row, wherever it is, has
    no value for one of them (it is too short), the load is given up with
    the read error and no mapping: what the rows before it gave is lost. *)
Theorem incomplete_row_voids_load fieldnames records :
  PROJECT_NAME_COL ∈ fieldnames →
  EMAIL_COL ∈ fieldnames →
  Exists (λ row, ¬ complete row) (dict_rows fieldnames records) →
  load_project_data (CsvRecords (fieldnames :: records))
  = (None, [CsvReadError]).
Proof.
  intros Hp He Hrow. unfold load_project_data.
  rewrite !bool_decide_eq_false_2 by (intros H; by apply H). simpl.
  by rewrite load_rows_incomplete.
Qed.

Lemma incomplete_row_voids_load_witness :
  load_project_data
    (CsvRecords [sample_header; [lit "p1"; lit "ana@teco.com.ar"]; [lit "p2"]])
  = (None, [CsvReadError]).
Proof.
  apply (incomplete_row_voids_load sample_header
           [[lit "p1"; lit "ana@teco.com.ar"]; [lit "p2"]]).
  - apply list_elem_of_here.
  - apply list_elem_of_further, list_elem_of_here.
  - unfold dict_rows. simpl. apply Exists_cons_tl, Exists_cons_hd.
    intros [_ [contact Hc]]. by vm_compute in Hc.
Defined.

(** ** The editor and the walk on the file system *)

Lemma update_terragrunt_file_frame linesep fs file_path project_name email :
  let fs' := (update_terragrunt_file linesep fs file_path project_name email).1 in
  (∀ q, q ≠ file_path → fs' !! q = fs !! q) ∧
  (fs' !! file_path ≠ fs !! file_path →
   has_labels_block fs file_path = true ∧
   ∃ text, fs' !! file_path = Some (File (Some text) true)) ∧
  (∀ q, is_Some (fs' !! q) ↔ is_Some (fs !! q)).
Proof.
  unfold update_terragrunt_file, has_labels_block.
  destruct (fs !! file_path) as [[|[raw|] writable]|] eqn:Hfile; simpl;
    try done.
  rewrite scan_lines_from, labels_block_found_scan_from. simpl.
  destruct (existsb is_opener (readlines raw)); simpl; [|done].
  destruct writable; simpl; [|done].
  split_and!.
  - intros q Hq. by rewrite lookup_insert_ne.
  - intros _. split; [done|]. rewrite lookup_insert_eq. by eexists.
  - intros q. destruct (decide (file_path = q)) as [<-|Hne].
    + rewrite lookup_insert_eq, Hfile. split; by eexists.
    + by rewrite lookup_insert_ne.
Qed.

(** X11.  [update_terragrunt_file] touches no path but its own; the file
    at its path is changed only when it can be read and has an opener
    line, and is then a readable file still; no path is added or lost. *)
Theorem update_touches_only_its_file linesep fs file_path project_name email :
  let fs' := (update_terragrunt_file linesep fs file_path project_name email).1 in
  (∀ q, q ≠ file_path → fs' !! q = fs !! q) ∧
  (fs' !! file_path ≠ fs !! file_path →
   has_labels_block fs file_path = true ∧
   ∃ text, fs' !! file_path = Some (File (Some text) true)) ∧
  (∀ q, is_Some (fs' !! q) ↔ is_Some (fs !! q)).
Proof. apply update_terragrunt_file_frame. Qed.

Lemma visit_keeps_paths linesep project_data w p q :
  is_Some (files (visit linesep project_data w p) !! q)
  ↔ is_Some (files w !! q).
Proof.
  unfold visit.
  destruct (read_text (files w) p) as [content|]; simpl; [|done].
  destruct (project_name_pattern content) as [name|]; simpl; [|done].
  destruct (project_data !! name) as [email|]; simpl; [|done].
  apply update_terragrunt_file_frame.
Qed.

Lemma walk_keeps_paths linesep project_data w l q :
  is_Some (files (foldl (visit linesep project_data) w l) !! q)
  ↔ is_Some (files w !! q).
Proof.
  revert w. induction l as [|p l IH]; intros w; simpl; [done|].
  by rewrite IH, visit_keeps_paths.
Qed.

Lemma walk_output linesep project_data w l :
  ∃ more, output (foldl (visit linesep project_data) w l) = output w ++ more.
Proof.
  revert w. induction l as [|p l IH]; intros w; simpl.
  - exists []. by rewrite app_nil_r.
  - destruct (IH (visit linesep project_data w p)) as [more ->].
    unfold visit.
    destruct (read_text (files w) p) as [content|]; simpl;
      [|rewrite <- app_assoc; by eexists].
    destruct (project_name_pattern content) as [name|]; simpl; [|by eexists].
    destruct (project_data !! name) as [email|]; simpl; [|by eexists].
    rewrite <- !app_assoc. by eexists.
Qed.

(** X12.  On a directory, the walk first prints that the search starts and
    last the summary; the summary counts every path of the glob as
    processed, and as modified every one whose file can be read and names a
    project of the mapping. *)
Theorem summary_counts_matches_and_lookups linesep fs iac_path project_data :
  is_dir fs iac_path = true →
  ∃ out,
    (main linesep fs iac_path project_data).2
    = [SearchStarted iac_path] ++ out ++
      [Summary (length (glob fs iac_path))
               (length (filter (λ p, lookup_hit fs project_data p)
                               (glob fs iac_path)))].
Proof.
  intros Hdir. unfold main. rewrite Hdir. simpl.
  destruct (walk_spec linesep project_data fs
              (Walk fs [SearchStarted iac_path] 0 0) (glob fs iac_path))
    as (Hproc & Hmod & _); [apply glob_NoDup|done|].
  destruct (walk_output linesep project_data
              (Walk fs [SearchStarted iac_path] 0 0) (glob fs iac_path))
    as [more Hout].
  simpl in *. rewrite Hproc, Hmod, Hout. by exists more.
Qed.

Lemma summary_counts_matches_and_lookups_witness :
  let fs := sample_fs (text_of [LF] one_block_hcl) in
  ∃ out,
    (main [LF] fs [lit "iac"] sample_project_data).2
    = [SearchStarted [lit "iac"]] ++ out ++
      [Summary (length (glob fs [lit "iac"]))
               (length (filter (λ p, lookup_hit fs sample_project_data p)
                               (glob fs [lit "iac"])))].
Proof.
  intros fs. apply summary_counts_matches_and_lookups. by vm_compute.
Defined.

Lemma main_changed_path linesep fs iac_path project_data q :
  (main linesep fs iac_path project_data).1 !! q ≠ fs !! q →
  is_dir fs iac_path = true ∧ q ∈ glob fs iac_path ∧
  lookup_hit fs project_data q = true ∧ has_labels_block fs q = true.
Proof.
  unfold main. destruct (is_dir fs iac_path) eqn:Hdir; simpl; [|done].
  intros Hq. split; [done|].
  destruct (walk_spec linesep project_data fs
              (Walk fs [SearchStarted iac_path] 0 0) (glob fs iac_path))
    as (_ & _ & Hfiles); [apply glob_NoDup|done|].
  by apply Hfiles.
Qed.

(** X13.  The walk changes a path only if the root is a directory and the
    path is one of the glob whose file can be read, names a project of the
    mapping and has an opener line. *)
Theorem main_changes_only_labelled_matches linesep fs iac_path project_data q :
  (main linesep fs iac_path project_data).1 !! q ≠ fs !! q →
  is_dir fs iac_path = true ∧ q ∈ glob fs iac_path ∧
  lookup_hit fs project_data q = true ∧ has_labels_block fs q = true.
Proof. apply main_changed_path. Qed.

Lemma main_changes_only_labelled_matches_witness :
  let fs := sample_fs (text_of [LF] one_block_hcl) in
  is_dir fs [lit "iac"] = true ∧ sample_path ∈ glob fs [lit "iac"] ∧
  lookup_hit fs sample_project_data sample_path = true ∧
  has_labels_block fs sample_path = true.
Proof.
  intros fs. apply (main_changes_only_labelled_matches [LF]).
  apply (bool_decide_unpack _). by vm_compute.
Defined.

(** X14.  The walk adds no path and loses none, and leaves every directory
    and every file that cannot be read as it is. *)
Theorem main_keeps_paths linesep fs iac_path project_data q writable :
  let fs' := (main linesep fs iac_path project_data).1 in
  (is_Some (fs' !! q) ↔ is_Some (fs !! q)) ∧
  (fs !! q = Some Dir → fs' !! q = Some Dir) ∧
  (fs !! q = Some (File None writable) →
   fs' !! q = Some (File None writable)).
Proof.
  cbn zeta. split_and!.
  - unfold main. destruct (is_dir fs iac_path); simpl; [|done].
    apply walk_keeps_paths.
  - intros Hq.
    destruct (decide ((main linesep fs iac_path project_data).1 !! q = fs !! q))
      as [->|Hne]; [done|].
    apply main_changed_path in Hne as (_ & _ & _ & Hblock).
    unfold has_labels_block in Hblock. by rewrite Hq in Hblock.
  - intros Hq.
    destruct (decide ((main linesep fs iac_path project_data).1 !! q = fs !! q))
      as [->|Hne]; [done|].
    apply main_changed_path in Hne as (_ & _ & _ & Hblock).
    unfold has_labels_block in Hblock. by rewrite Hq in Hblock.
Qed.

(** X16.  The script changes a path only if the load gave a mapping that is
    not empty and the walk with that mapping changes it. *)
Theorem script_changes_only_after_load linesep csv fs iac_path q :
  (script linesep csv fs iac_path).1 !! q ≠ fs !! q →
  ∃ project_data,
    (load_project_data csv).1 = Some project_data ∧ project_data ≠ ∅ ∧
    is_dir fs iac_path = true ∧ q ∈ glob fs iac_path ∧
    lookup_hit fs project_data q = true ∧ has_labels_block fs q = true.
Proof.
  unfold script.
  destruct ((load_project_data csv).1) as [project_data|]; simpl; [|done].
  destruct (size project_data =? 0) eqn:Hsize; simpl; [done|].
  intros Hq. exists project_data. split; [done|]. split.
  - intros ->. by rewrite map_size_empty in Hsize.
  - by eapply main_changed_path.
Qed.

Lemma script_changes_only_after_load_witness :
  let fs := sample_fs (text_of [LF] one_block_hcl) in
  ∃ project_data,
    (load_project_data
       (CsvRecords [sample_header; [lit "p1"; lit "ana@teco.com.ar"]])).1
    = Some project_data ∧ project_data ≠ ∅ ∧
    is_dir fs [lit "iac"] = true ∧ sample_path ∈ glob fs [lit "iac"] ∧
    lookup_hit fs project_data sample_path = true ∧
    has_labels_block fs sample_path = true.
Proof.
  intros fs. apply (script_changes_only_after_load [LF]).
  apply (bool_decide_unpack _). by vm_compute.
Defined.

(** ** The order of the walk

    [glob] yields the paths in the order of the operating system.  What a
    visit does to a path depends on the file at that path only, so the order
    matters to the order of the messages and to nothing else. *)

Lemma update_terragrunt_file_lookup_self linesep fs1 fs2 p project_name email :
  fs1 !! p = fs2 !! p →
  (update_terragrunt_file linesep fs1 p project_name email).1 !! p
  = (update_terragrunt_file linesep fs2 p project_name email).1 !! p ∧
  (update_terragrunt_file linesep fs1 p project_name email).2
  = (update_terragrunt_file linesep fs2 p project_name email).2.
Proof.
  intros H. unfold update_terragrunt_file. rewrite <- H.
  destruct (fs1 !! p) as [[|[raw|] writable]|] eqn:Hp; simpl;
    try (split; congruence).
  destruct (negb _); simpl; [split; congruence|].
  destruct writable; simpl; [|split; congruence].
  by rewrite !lookup_insert_eq.
Qed.

(** What the visit of [p] prints, on the file system [fs]. *)
Lemma visit_lookup_self linesep project_data fs w p :
  files w !! p = fs !! p →
  files (visit linesep project_data w p) !! p
  = files (visit linesep project_data (Walk fs [] 0 0) p) !! p ∧
  output (visit linesep project_data w p)
  = output w ++ output (visit linesep project_data (Walk fs [] 0 0) p).
Proof.
  intros H. unfold visit, read_text. simpl. rewrite <- H.
  destruct (files w !! p) as [[|[raw|] writable]|] eqn:Hp; simpl;
    try (split; [congruence|done]).
  destruct (project_name_pattern _) as [name|]; simpl;
    [|split; [congruence|by rewrite app_nil_r]].
  destruct (project_data !! name) as [email|]; simpl;
    [|split; [congruence|by rewrite app_nil_r]].
  destruct (update_terragrunt_file_lookup_self linesep (files w) fs p name email)
    as [Hf Ho]; [congruence|].
  by rewrite Hf, Ho.
Qed.

Lemma visit_lookup_other linesep project_data w p q :
  q ≠ p → files (visit linesep project_data w p) !! q = files w !! q.
Proof.
  intros Hne.
  destruct (decide (files (visit linesep project_data w p) !! q = files w !! q))
    as [|Hq]; [done|].
  by apply (visit_spec linesep project_data w p) in Hq as [-> _].
Qed.

Lemma walk_lookup_unvisited linesep project_data w l q :
  q ∉ l → files (foldl (visit linesep project_data) w l) !! q = files w !! q.
Proof.
  revert w. induction l as [|p l IH]; intros w Hq; simpl; [done|].
  apply not_elem_of_cons in Hq as [Hne Hq].
  rewrite IH by done. by apply visit_lookup_other.
Qed.

Lemma walk_lookup_visited linesep project_data fs w l q :
  NoDup l → q ∈ l → files w !! q = fs !! q →
  files (foldl (visit linesep project_data) w l) !! q
  = files (visit linesep project_data (Walk fs [] 0 0) q) !! q.
Proof.
  intros Hnodup. revert w.
  induction Hnodup as [|p l Hp Hnodup IH]; intros w Hq Hsame; simpl.
  - by apply elem_of_nil in Hq.
  - destruct (decide (q = p)) as [->|Hne].
    + rewrite walk_lookup_unvisited by done.
      by apply visit_lookup_self.
    + apply elem_of_cons in Hq as [?|Hq]; [done|].
      apply IH; [done|]. by rewrite visit_lookup_other.
Qed.

Lemma walk_output_concat linesep project_data fs w l :
  NoDup l →
  (∀ q, q ∈ l → files w !! q = fs !! q) →
  output (foldl (visit linesep project_data) w l)
  = output w
    ++ concat ((λ p, output (visit linesep project_data (Walk fs [] 0 0) p)) <$> l).
Proof.
  intros Hnodup. revert w.
  induction Hnodup as [|p l Hp Hnodup IH]; intros w Hsame; simpl.
  - by rewrite app_nil_r.
  - rewrite IH.
    + destruct (visit_lookup_self linesep project_data fs w p) as [_ ->].
      * apply Hsame. by left.
      * by rewrite <- app_assoc.
    + intros q Hq. rewrite visit_lookup_other by (by intros ->).
      apply Hsame. by right.
Qed.

Lemma concat_fmap_Permutation {A B} (f : A → list B) (l1 l2 : list A) :
  l1 ≡ₚ l2 → concat (f <$> l1) ≡ₚ concat (f <$> l2).
Proof.
  induction 1 as [|x l1 l2 _ IH|x y l|l1 l2 l3 _ IH1 _ IH2]; simpl.
  - done.
  - by rewrite IH.
  - rewrite !app_assoc. by rewrite (Permutation_app_comm (f y) (f x)).
  - by rewrite IH1.
Qed.

(** X15.  The walk does not depend on the order in which the paths of the
    glob come: visiting the same paths, each once, in another order gives
    the same files and the same two counters, and the same messages in
    another order. *)
Theorem walk_order_is_irrelevant linesep project_data fs out (l1 l2 : list path) :
  NoDup l1 → l1 ≡ₚ l2 →
  let w1 := foldl (visit linesep project_data) (Walk fs out 0 0) l1 in
  let w2 := foldl (visit linesep project_data) (Walk fs out 0 0) l2 in
  files w1 = files w2 ∧
  files_processed w1 = files_processed w2 ∧
  files_modified w1 = files_modified w2 ∧
  output w1 ≡ₚ output w2.
Proof.
  intros Hnodup1 Hperm. cbn zeta.
  assert (NoDup l2) as Hnodup2 by by rewrite <- Hperm.
  split_and!.
  - apply map_eq. intros q. destruct (decide (q ∈ l1)) as [Hq|Hq].
    + rewrite (walk_lookup_visited linesep project_data fs _ l1) by done.
      rewrite (walk_lookup_visited linesep project_data fs _ l2);
        [done..|by rewrite <- Hperm|done].
    + rewrite !walk_lookup_unvisited; [done|by rewrite <- Hperm|done].
  - destruct (walk_spec linesep project_data fs (Walk fs out 0 0) l1)
      as (-> & _ & _); [done..|].
    destruct (walk_spec linesep project_data fs (Walk fs out 0 0) l2)
      as (-> & _ & _); [done..|].
    by rewrite Hperm.
  - destruct (walk_spec linesep project_data fs (Walk fs out 0 0) l1)
      as (_ & -> & _); [done..|].
    destruct (walk_spec linesep project_data fs (Walk fs out 0 0) l2)
      as (_ & -> & _); [done..|].
    by rewrite Hperm.
  - rewrite (walk_output_concat linesep project_data fs _ l1) by done.
    rewrite (walk_output_concat linesep project_data fs _ l2) by done.
    simpl. apply Permutation_app_head. by apply concat_fmap_Permutation.
Qed.

Lemma walk_order_is_irrelevant_witness :
  let web := [lit "iac"; lit "web"; lit "project"; lit "terragrunt.hcl"] in
  let fs := <[web := File (Some (text_of [LF] labelled_hcl)) true]>
              (sample_fs (text_of [LF] one_block_hcl)) in
  let w1 := foldl (visit [LF] sample_project_data) (Walk fs [] 0 0)
                  [sample_path; web] in
  let w2 := foldl (visit [LF] sample_project_data) (Walk fs [] 0 0)
                  [web; sample_path] in
  files w1 = files w2 ∧
  files_processed w1 = files_processed w2 ∧
  files_modified w1 = files_modified w2 ∧
  output w1 ≡ₚ output w2.
Proof.
  intros web fs.
  apply (walk_order_is_irrelevant [LF] sample_project_data fs []
           [sample_path; web] [web; sample_path]).
  - apply (bool_decide_unpack _). by vm_compute.
  - apply perm_swap.
Defined.

(** ** The pattern of the project name *)

(** X3.  [project_name_pattern] gives a name exactly when the content holds
    the word name, white space, an equals sign, white space and the name
    between two double quotes, the name being one character or more and
    none of them a double quote, and no such text begins further to the
    left. *)
Theorem project_name_is_leftmost_quoted_name content name :
  project_name_pattern content = Some name ↔
  ∃ before w1 w2 rest,
    content = before ++ lit "name" ++ w1 ++ [EQUALS] ++ w2 ++ [QUOTE]
                     ++ name ++ [QUOTE] ++ rest ∧
    Forall (λ c, is_space c = true) w1 ∧
    Forall (λ c, is_space c = true) w2 ∧
    name ≠ [] ∧ Forall (λ c, not_quote c = true) name ∧
    ∀ b1 b2, before = b1 ++ b2 → b2 ≠ [] →
      project_name_here
        (b2 ++ lit "name" ++ w1 ++ [EQUALS] ++ w2 ++ [QUOTE]
            ++ name ++ [QUOTE] ++ rest) = None.
Proof.
  rewrite project_name_pattern_search. split.
  - intros (before & after & -> & Hhere & Hleft).
    apply project_name_here_regex in Hhere
      as (w1 & w2 & rest & -> & F1 & F2 & Hne & F3).
    exists before, w1, w2, rest. by split_and!.
  - intros (before & w1 & w2 & rest & -> & F1 & F2 & Hne & F3 & Hleft).
    eexists before, _. split_and!; [done| |done].
    apply project_name_here_regex. exists w1, w2, rest. by split_and!.
Qed.

(** ** What the editor keeps *)

Lemma scan_from_keeps_lines lines email st k rest :
  new_lines st ++ rest
    `sublist_of` new_lines (scan_from lines email st k rest).
Proof.
  revert st k. induction rest as [|a rest IH]; intros st k.
  - by rewrite scan_from_nil, app_nil_r.
  - rewrite scan_from_cons. etrans; [|apply IH].
    rewrite (cons_middle a), app_assoc. apply sublist_app; [|done].
    destruct (is_opener a) eqn:Ho;
      [rewrite scan_line_opener by done
      |destruct (in_labels_block st && is_closer a) eqn:Hc;
       [apply andb_true_iff in Hc as [??];
        rewrite scan_line_closer by done
       |rewrite scan_line_other by done]];
      simpl; try done.
    apply sublist_app; [done|]. by apply sublist_cons.
Qed.

(** X17.  The editor drops no line and moves none: the lines read are,
    in their order, among the lines written; and every line written that
    is not a line read is a new [biso_team] line for the formatted
    contact. *)
Theorem editor_keeps_every_line lines email :
  let st := scan_lines lines email in
  lines `sublist_of` new_lines st ∧
  ∀ l, l ∈ new_lines st → l ∉ lines →
       ∃ indentation,
         l = biso_team_line indentation (format_email_for_label email).
Proof.
  cbn zeta. rewrite scan_lines_from. split.
  - apply (scan_from_keeps_lines lines email (Scan [] false false []) 0 lines).
  - intros l Hl Hnot.
    apply scan_from_origin in Hl as [Hl|[Hl|Hl]]; [|done..].
    simpl in Hl. by apply elem_of_nil in Hl.
Qed.

(** X18.  The search for the indentation stops before the first line of
    the file: when no line from the second one to the one before the closer
    is a label line, the new line has four spaces, whatever the first line
    is, a label line with its own indentation too. *)
Theorem first_line_not_consulted lines email pre o body c post :
  lines = pre ++ [o] ++ body ++ [c] ++ post →
  is_opener o = true →
  Forall (λ l, is_inner l = true) body →
  is_closer c = true →
  (∀ k l, 1 ≤ k < length (pre ++ [o] ++ body) →
          lines !! k = Some l → last_label_pattern l = false) →
  ∃ out_post,
    new_lines (scan_lines lines email)
    = new_lines (scan_from lines email (Scan [] false false []) 0 pre) ++
      [o] ++ body ++
      [biso_team_line (lit "    ") (format_email_for_label email); c] ++
      out_post.
Proof.
  intros Hlines Ho Hbody Hc Hnone.
  destruct (scan_lines_block lines email pre o body c post)
    as (out_post & Hout & _); try done.
  exists out_post. rewrite Hout.
  rewrite indentation_from_none; [done|].
  intros k l Hk. apply Hnone. rewrite !length_app. simpl. lia.
Qed.

Lemma first_line_not_consulted_witness :
  let first := lit "  name = " ++ quoted "p1" ++ [LF] in
  let o := lit "labels = {" ++ [LF] in
  let c := lit "}" ++ [LF] in
  last_label_pattern first = true ∧
  leading_space first = Some (lit "  ") ∧
  ∃ out_post,
    new_lines (scan_lines [first; o; c] sample_email)
    = new_lines (scan_from [first; o; c] sample_email
                   (Scan [] false false []) 0 [first]) ++
      [o] ++ [] ++
      [biso_team_line (lit "    ") (format_email_for_label sample_email); c] ++
      out_post.
Proof.
  intros first o c. split; [by vm_compute|]. split; [by vm_compute|].
  apply (first_line_not_consulted [first; o; c] sample_email [first] o [] c []).
  - done.
  - by vm_compute.
  - constructor.
  - by vm_compute.
  - intros k l Hk. simpl in Hk. assert (k = 1) as -> by lia.
    intros [= <-]. by vm_compute.
Defined.

(** ** Files that cannot be written *)

(** X19.  The walk leaves every file that cannot be opened for writing as
    it is, whatever it holds: a labels block and a project name of the
    mapping too. *)
Theorem read_only_file_left_as_it_is linesep fs iac_path project_data q text :
  fs !! q = Some (File text false) →
  (main linesep fs iac_path project_data).1 !! q = Some (File text false).
Proof.
  intros Hq. unfold main. destruct (is_dir fs iac_path); simpl; [|done].
  destruct (decide (q ∈ glob fs iac_path)) as [Hin|Hout].
  - rewrite (walk_lookup_visited linesep project_data fs);
      [|apply glob_NoDup|done|done].
    unfold visit, read_text. simpl. rewrite Hq.
    destruct text as [raw|]; simpl; [|done].
    destruct (project_name_pattern _) as [name|]; simpl; [|done].
    destruct (project_data !! name) as [email|]; simpl; [|done].
    unfold update_terragrunt_file. rewrite Hq.
    by destruct (negb _).
  - by rewrite walk_lookup_unvisited.
Qed.

Lemma read_only_file_left_as_it_is_witness :
  let text := text_of [LF] one_block_hcl in
  let fs := <[sample_path := File (Some text) false]> (sample_fs text) in
  lookup_hit fs sample_project_data sample_path = true ∧
  has_labels_block fs sample_path = true ∧
  (main [LF] fs [lit "iac"] sample_project_data).1 !! sample_path
  = Some (File (Some text) false).
Proof.
  intros text fs. split; [by vm_compute|]. split; [by vm_compute|].
  apply read_only_file_left_as_it_is. by vm_compute.
Defined.
